(** * scjail-crawler-service: a shallow embedding of the extraction,
    incremental filtering and transactional serialization pipeline.

    Rust strings are modelled as [string] (ASCII characters); the text
    helpers below work on [list ascii] and convert at the boundary.
    Rust's [char::is_whitespace] is modelled on its ASCII part
    (space, \t, \n, \x0B, \x0C, \r). *)

From Stdlib Require Import String Ascii ZArith NArith List Lia Sorted.
From stdpp Require Import base list gmap sets strings sorting.

Import ListNotations.
Open Scope list_scope.

(* ------------------------------------------------------------------ *)
(** ** Text helpers (Rust [str] methods used by the crate) *)

Module Text.

Definition chars (s : string) : list ascii := list_ascii_of_string s.
Definition of_chars (l : list ascii) : string := string_of_list_ascii l.

(** [char::is_whitespace] restricted to ASCII. *)
Definition is_whitespace (c : ascii) : bool :=
  let n := nat_of_ascii c in
  ((9 <=? n) && (n <=? 13))%nat || (n =? 32)%nat.

Fixpoint drop_ws (l : list ascii) : list ascii :=
  match l with
  | [] => []
  | c :: rest => if is_whitespace c then drop_ws rest else l
  end.

(** [str::trim]: strip leading and trailing whitespace. *)
Definition trim_chars (l : list ascii) : list ascii :=
  List.rev (drop_ws (List.rev (drop_ws l))).

Definition trim (s : string) : string := of_chars (trim_chars (chars s)).

(** [str::split(sep)]: the pieces between separators; an empty input
    yields one empty piece, and a separator at either end yields an
    empty piece there. *)
Fixpoint split_on (sep : ascii) (l : list ascii) : list (list ascii) :=
  match l with
  | [] => [[]]
  | c :: rest =>
      let parts := split_on sep rest in
      if Ascii.eqb c sep then [] :: parts
      else match parts with
           | p :: ps => (c :: p) :: ps
           | [] => [[c]]
           end
  end.

End Text.

(* ------------------------------------------------------------------ *)
(** ** utils.rs: [dollars_to_cents] and [cents_to_dollars] *)

Module Money.
Import Text.

(** [u64::MAX] *)
Definition u64_max : N := 18446744073709551615%N.

(** [char::is_digit(10)] *)
Definition is_digit (c : ascii) : bool :=
  let n := nat_of_ascii c in ((48 <=? n) && (n <=? 57))%nat.

Definition digit_value (c : ascii) : N := N.of_nat (nat_of_ascii c - 48).
Definition digit_char (d : N) : ascii := ascii_of_N (48 + d).

(** The accumulation loop of [u64::from_str_radix(_, 10)]: every step
    is [acc * 10 + d] with checked arithmetic; a non-digit or an
    overflow is an error. *)
Fixpoint parse_u64_digits (acc : N) (l : list ascii) : option N :=
  match l with
  | [] => Some acc
  | c :: rest =>
      if is_digit c then
        let v := (acc * 10 + digit_value c)%N in
        if (v <=? u64_max)%N then parse_u64_digits v rest else None
      else None
  end.

(** [str::parse::<u64>]: empty input is an error, one leading [+] is
    accepted. *)
Definition parse_u64 (s : string) : option N :=
  match chars s with
  | [] => None
  | c :: rest =>
      if Ascii.eqb c "+"%char then
        match rest with [] => None | _ => parse_u64_digits 0 rest end
      else parse_u64_digits 0 (c :: rest)
  end.

(** [dollars_to_cents]: keep the decimal digits, parse them as a [u64],
    and return 0 when the parse fails. *)
Definition dollars_to_cents (dollars : string) : N :=
  match parse_u64 (of_chars (List.filter is_digit (chars dollars))) with
  | Some cents => cents
  | None => 0%N
  end.

(** [Display] of an unsigned integer: its decimal digits, most
    significant first. [fuel] bounds the number of digits. *)
Fixpoint show_N_fuel (fuel : nat) (n : N) : list ascii :=
  match fuel with
  | O => []
  | S f =>
      if (n <? 10)%N then [digit_char n]
      else show_N_fuel f (n / 10) ++ [digit_char (n mod 10)]
  end.

Definition show_N (n : N) : list ascii := show_N_fuel (S (N.size_nat n)) n.

(** The [{:02}] format: pad on the left with zeros to width 2. *)
Definition pad_zero (width : nat) (l : list ascii) : list ascii :=
  List.repeat "0"%char (width - length l) ++ l.

(** [cents_to_dollars] at [T = u64]:
    [format!("${}.{:02}", cents / 100, cents % 100)]. *)
Definition cents_to_dollars (cents : N) : string :=
  of_chars ("$"%char :: show_N (cents / 100) ++ "."%char
              :: pad_zero 2 (show_N (cents mod 100))).

End Money.

(* ------------------------------------------------------------------ *)
(** ** error.rs *)

Inductive Error : Type :=
| NetworkError
| ParseError
| ArgumentError
| InternalError (explanation : string)
| PostgresError (explanation : string)
| S3Error (explanation : string).

(** Rust's [Result<T, Error>]. *)
Inductive result (A : Type) : Type :=
| Ok (a : A)
| Err (e : Error).
Arguments Ok {A} a.
Arguments Err {A} e.

(* ------------------------------------------------------------------ *)
(** ** inmate.rs *)

Module Inmate.
Import Text.

(** Byte strings ([Vec<u8>]); the image blob and the hash input. *)
Abbreviation bytes := (list Byte.byte).

Record InmateProfile := {
  first_name : string;
  middle_name : option string;
  last_name : string;
  affix : option string;
  perm_id : option string;
  sex : option string;
  dob : string;
  arrest_agency : option string;
  booking_date_iso8601 : string;
  booking_number : option string;
  height : option string;
  weight : option string;
  race : option string;
  eye_color : option string;
  aliases : option (list string);
  img_blob : option bytes;
  scil_sys_id : option string;
  (** the [f32] components are carried by their bit patterns *)
  embedding : option (list Z);
}.

(** [InmateProfile::default()] *)
Definition default_profile : InmateProfile := {|
  first_name := ""; middle_name := None; last_name := ""; affix := None;
  perm_id := None; sex := None; dob := ""; arrest_agency := None;
  booking_date_iso8601 := ""; booking_number := None; height := None;
  weight := None; race := None; eye_color := None; aliases := None;
  img_blob := None; scil_sys_id := None; embedding := None |}.

(** The parts of a detail document that the extractor reads. The
    selector engine is external; a document is given by what its
    selectors return. *)
Record TableDisplay := {
  (** first text node of each [dt] of one [.table-display] *)
  dts : list (option string);
  (** first text node of each [dd] of the same element *)
  dds : list (option string);
}.

Record Html := {
  (** [src] of the first [.inmates img], if any *)
  img_src : option string;
  (** the [.table-display] elements, in document order *)
  profile_tables : list TableDisplay;
  (** [.inmates-bond-table tbody tr]: the collected text of each [td] *)
  bond_rows : list (list string);
  (** [.inmates-charges-table tbody tr]: the collected text of each [td] *)
  charge_rows : list (list string);
}.

(** [str::to_ascii_lowercase] *)
Definition ascii_lower (c : ascii) : ascii :=
  let n := nat_of_ascii c in
  if ((65 <=? n) && (n <=? 90))%nat then ascii_of_nat (n + 32) else c.

Definition to_ascii_lowercase (s : string) : string :=
  of_chars (List.map ascii_lower (chars s)).

(** [(!s.is_empty()).then(|| s)] *)
Definition nonempty_then (s : string) : option string :=
  if String.eqb s "" then None else Some s.

(** [s.replace("\\", "")] *)
Definition remove_backslashes (s : string) : string :=
  of_chars (List.filter (fun c => negb (Ascii.eqb c "092"%char)) (chars s)).

(** [InmateProfile::get_aliases]: split on commas, trim, drop empty
    pieces; no surviving piece gives [None]. *)
Definition get_aliases (aliases : string) : option (list string) :=
  let alias_vec :=
    List.filter (fun s => negb (String.eqb s ""))
      (List.map (fun p => trim (of_chars p)) (split_on ","%char (chars aliases))) in
  match alias_vec with
  | [] => None
  | _ => Some alias_vec
  end.

(** Field assignments [self.f = v] on a profile. *)
Definition set_first_name (p : InmateProfile) (v : string) : InmateProfile := {|
  first_name := v; middle_name := middle_name p; last_name := last_name p;
  affix := affix p; perm_id := perm_id p; sex := sex p; dob := dob p;
  arrest_agency := arrest_agency p;
  booking_date_iso8601 := booking_date_iso8601 p;
  booking_number := booking_number p; height := height p;
  weight := weight p; race := race p; eye_color := eye_color p;
  aliases := aliases p; img_blob := img_blob p;
  scil_sys_id := scil_sys_id p; embedding := embedding p |}.
Definition set_middle_name (p : InmateProfile) (v : option string) : InmateProfile := {|
  first_name := first_name p; middle_name := v; last_name := last_name p;
  affix := affix p; perm_id := perm_id p; sex := sex p; dob := dob p;
  arrest_agency := arrest_agency p;
  booking_date_iso8601 := booking_date_iso8601 p;
  booking_number := booking_number p; height := height p;
  weight := weight p; race := race p; eye_color := eye_color p;
  aliases := aliases p; img_blob := img_blob p;
  scil_sys_id := scil_sys_id p; embedding := embedding p |}.
Definition set_last_name (p : InmateProfile) (v : string) : InmateProfile := {|
  first_name := first_name p; middle_name := middle_name p; last_name := v;
  affix := affix p; perm_id := perm_id p; sex := sex p; dob := dob p;
  arrest_agency := arrest_agency p;
  booking_date_iso8601 := booking_date_iso8601 p;
  booking_number := booking_number p; height := height p;
  weight := weight p; race := race p; eye_color := eye_color p;
  aliases := aliases p; img_blob := img_blob p;
  scil_sys_id := scil_sys_id p; embedding := embedding p |}.
Definition set_affix (p : InmateProfile) (v : option string) : InmateProfile := {|
  first_name := first_name p; middle_name := middle_name p;
  last_name := last_name p; affix := v; perm_id := perm_id p; sex := sex p;
  dob := dob p; arrest_agency := arrest_agency p;
  booking_date_iso8601 := booking_date_iso8601 p;
  booking_number := booking_number p; height := height p;
  weight := weight p; race := race p; eye_color := eye_color p;
  aliases := aliases p; img_blob := img_blob p;
  scil_sys_id := scil_sys_id p; embedding := embedding p |}.
Definition set_perm_id (p : InmateProfile) (v : option string) : InmateProfile := {|
  first_name := first_name p; middle_name := middle_name p;
  last_name := last_name p; affix := affix p; perm_id := v; sex := sex p;
  dob := dob p; arrest_agency := arrest_agency p;
  booking_date_iso8601 := booking_date_iso8601 p;
  booking_number := booking_number p; height := height p;
  weight := weight p; race := race p; eye_color := eye_color p;
  aliases := aliases p; img_blob := img_blob p;
  scil_sys_id := scil_sys_id p; embedding := embedding p |}.
Definition set_sex (p : InmateProfile) (v : option string) : InmateProfile := {|
  first_name := first_name p; middle_name := middle_name p;
  last_name := last_name p; affix := affix p; perm_id := perm_id p;
  sex := v; dob := dob p; arrest_agency := arrest_agency p;
  booking_date_iso8601 := booking_date_iso8601 p;
  booking_number := booking_number p; height := height p;
  weight := weight p; race := race p; eye_color := eye_color p;
  aliases := aliases p; img_blob := img_blob p;
  scil_sys_id := scil_sys_id p; embedding := embedding p |}.
Definition set_dob (p : InmateProfile) (v : string) : InmateProfile := {|
  first_name := first_name p; middle_name := middle_name p;
  last_name := last_name p; affix := affix p; perm_id := perm_id p;
  sex := sex p; dob := v; arrest_agency := arrest_agency p;
  booking_date_iso8601 := booking_date_iso8601 p;
  booking_number := booking_number p; height := height p;
  weight := weight p; race := race p; eye_color := eye_color p;
  aliases := aliases p; img_blob := img_blob p;
  scil_sys_id := scil_sys_id p; embedding := embedding p |}.
Definition set_arrest_agency (p : InmateProfile) (v : option string) : InmateProfile := {|
  first_name := first_name p; middle_name := middle_name p;
  last_name := last_name p; affix := affix p; perm_id := perm_id p;
  sex := sex p; dob := dob p; arrest_agency := v;
  booking_date_iso8601 := booking_date_iso8601 p;
  booking_number := booking_number p; height := height p;
  weight := weight p; race := race p; eye_color := eye_color p;
  aliases := aliases p; img_blob := img_blob p;
  scil_sys_id := scil_sys_id p; embedding := embedding p |}.
Definition set_booking_date_iso8601 (p : InmateProfile) (v : string) : InmateProfile := {|
  first_name := first_name p; middle_name := middle_name p;
  last_name := last_name p; affix := affix p; perm_id := perm_id p;
  sex := sex p; dob := dob p; arrest_agency := arrest_agency p;
  booking_date_iso8601 := v; booking_number := booking_number p;
  height := height p; weight := weight p; race := race p;
  eye_color := eye_color p; aliases := aliases p; img_blob := img_blob p;
  scil_sys_id := scil_sys_id p; embedding := embedding p |}.
Definition set_booking_number (p : InmateProfile) (v : option string) : InmateProfile := {|
  first_name := first_name p; middle_name := middle_name p;
  last_name := last_name p; affix := affix p; perm_id := perm_id p;
  sex := sex p; dob := dob p; arrest_agency := arrest_agency p;
  booking_date_iso8601 := booking_date_iso8601 p; booking_number := v;
  height := height p; weight := weight p; race := race p;
  eye_color := eye_color p; aliases := aliases p; img_blob := img_blob p;
  scil_sys_id := scil_sys_id p; embedding := embedding p |}.
Definition set_height (p : InmateProfile) (v : option string) : InmateProfile := {|
  first_name := first_name p; middle_name := middle_name p;
  last_name := last_name p; affix := affix p; perm_id := perm_id p;
  sex := sex p; dob := dob p; arrest_agency := arrest_agency p;
  booking_date_iso8601 := booking_date_iso8601 p;
  booking_number := booking_number p; height := v; weight := weight p;
  race := race p; eye_color := eye_color p; aliases := aliases p;
  img_blob := img_blob p; scil_sys_id := scil_sys_id p;
  embedding := embedding p |}.
Definition set_weight (p : InmateProfile) (v : option string) : InmateProfile := {|
  first_name := first_name p; middle_name := middle_name p;
  last_name := last_name p; affix := affix p; perm_id := perm_id p;
  sex := sex p; dob := dob p; arrest_agency := arrest_agency p;
  booking_date_iso8601 := booking_date_iso8601 p;
  booking_number := booking_number p; height := height p; weight := v;
  race := race p; eye_color := eye_color p; aliases := aliases p;
  img_blob := img_blob p; scil_sys_id := scil_sys_id p;
  embedding := embedding p |}.
Definition set_race (p : InmateProfile) (v : option string) : InmateProfile := {|
  first_name := first_name p; middle_name := middle_name p;
  last_name := last_name p; affix := affix p; perm_id := perm_id p;
  sex := sex p; dob := dob p; arrest_agency := arrest_agency p;
  booking_date_iso8601 := booking_date_iso8601 p;
  booking_number := booking_number p; height := height p;
  weight := weight p; race := v; eye_color := eye_color p;
  aliases := aliases p; img_blob := img_blob p;
  scil_sys_id := scil_sys_id p; embedding := embedding p |}.
Definition set_eye_color (p : InmateProfile) (v : option string) : InmateProfile := {|
  first_name := first_name p; middle_name := middle_name p;
  last_name := last_name p; affix := affix p; perm_id := perm_id p;
  sex := sex p; dob := dob p; arrest_agency := arrest_agency p;
  booking_date_iso8601 := booking_date_iso8601 p;
  booking_number := booking_number p; height := height p;
  weight := weight p; race := race p; eye_color := v; aliases := aliases p;
  img_blob := img_blob p; scil_sys_id := scil_sys_id p;
  embedding := embedding p |}.
Definition set_aliases (p : InmateProfile) (v : option (list string)) : InmateProfile := {|
  first_name := first_name p; middle_name := middle_name p;
  last_name := last_name p; affix := affix p; perm_id := perm_id p;
  sex := sex p; dob := dob p; arrest_agency := arrest_agency p;
  booking_date_iso8601 := booking_date_iso8601 p;
  booking_number := booking_number p; height := height p;
  weight := weight p; race := race p; eye_color := eye_color p;
  aliases := v; img_blob := img_blob p; scil_sys_id := scil_sys_id p;
  embedding := embedding p |}.
Definition set_img_blob (p : InmateProfile) (v : option bytes) : InmateProfile := {|
  first_name := first_name p; middle_name := middle_name p;
  last_name := last_name p; affix := affix p; perm_id := perm_id p;
  sex := sex p; dob := dob p; arrest_agency := arrest_agency p;
  booking_date_iso8601 := booking_date_iso8601 p;
  booking_number := booking_number p; height := height p;
  weight := weight p; race := race p; eye_color := eye_color p;
  aliases := aliases p; img_blob := v; scil_sys_id := scil_sys_id p;
  embedding := embedding p |}.
Definition set_scil_sys_id (p : InmateProfile) (v : option string) : InmateProfile := {|
  first_name := first_name p; middle_name := middle_name p;
  last_name := last_name p; affix := affix p; perm_id := perm_id p;
  sex := sex p; dob := dob p; arrest_agency := arrest_agency p;
  booking_date_iso8601 := booking_date_iso8601 p;
  booking_number := booking_number p; height := height p;
  weight := weight p; race := race p; eye_color := eye_color p;
  aliases := aliases p; img_blob := img_blob p; scil_sys_id := v;
  embedding := embedding p |}.
Definition set_embedding (p : InmateProfile) (v : option (list Z)) : InmateProfile := {|
  first_name := first_name p; middle_name := middle_name p;
  last_name := last_name p; affix := affix p; perm_id := perm_id p;
  sex := sex p; dob := dob p; arrest_agency := arrest_agency p;
  booking_date_iso8601 := booking_date_iso8601 p;
  booking_number := booking_number p; height := height p;
  weight := weight p; race := race p; eye_color := eye_color p;
  aliases := aliases p; img_blob := img_blob p;
  scil_sys_id := scil_sys_id p; embedding := v |}.

(** One [dt]/[dd] pair of [set_core_profile_data]: dispatch on the
    normalised label; unknown labels change nothing. The counter
    [found_dts] only feeds a warning and is not modelled. *)
Definition set_profile_field (p : InmateProfile) (label dd_text : string)
  : InmateProfile :=
  if String.eqb label "first:" then set_first_name p dd_text
  else if String.eqb label "middle:" then set_middle_name p (nonempty_then dd_text)
  else if String.eqb label "last:" then set_last_name p dd_text
  else if String.eqb label "affix:" then set_affix p (nonempty_then dd_text)
  else if String.eqb label "permanent id:" then set_perm_id p (nonempty_then dd_text)
  else if String.eqb label "sex:" then set_sex p (nonempty_then dd_text)
  else if String.eqb label "date of birth:" then set_dob p dd_text
  else if String.eqb label "height:" then
    set_height p (if String.eqb dd_text "" then None else Some (remove_backslashes dd_text))
  else if String.eqb label "weight:" then set_weight p (nonempty_then dd_text)
  else if String.eqb label "race:" then set_race p (nonempty_then dd_text)
  else if String.eqb label "eye color:" then set_eye_color p (nonempty_then dd_text)
  else if String.eqb label "alias(es):" then set_aliases p (get_aliases dd_text)
  else if String.eqb label "committing agency:" then set_arrest_agency p (nonempty_then dd_text)
  else if String.eqb label "booking date time:" then set_booking_date_iso8601 p dd_text
  else if String.eqb label "booking number:" then set_booking_number p (nonempty_then dd_text)
  else p.

Definition process_pair (p : InmateProfile) (dt dd : option string) : InmateProfile :=
  match dt with
  | None => p
  | Some dt_text =>
      let dd_text := trim (match dd with Some t => t | None => "" end) in
      set_profile_field p (to_ascii_lowercase (trim dt_text)) dd_text
  end.

(** [while let (Some(dt), Some(dd)) = (dts.next(), dds.next())]: the
    two iterators advance together and the loop stops at the shorter. *)
Fixpoint process_pairs (p : InmateProfile) (dts dds : list (option string))
  : InmateProfile :=
  match dts, dds with
  | dt :: dts', dd :: dds' => process_pairs (process_pair p dt dd) dts' dds'
  | _, _ => p
  end.

(** [InmateProfile::set_core_profile_data] (never fails: its selectors
    are constants). *)
Definition set_core_profile_data (p : InmateProfile) (html : Html) : InmateProfile :=
  List.fold_left (fun p t => process_pairs p (dts t) (dds t)) (profile_tables html) p.

(** The awaited image response: [None] for a request error, otherwise
    the success flag of the status and the body ([None] when reading
    the bytes fails). *)
Definition ImgResponse := option (bool * option bytes).

Definition is_core_empty (p : InmateProfile) : bool :=
  String.eqb (first_name p) "" || String.eqb (last_name p) ""
  || String.eqb (dob p) "" || String.eqb (booking_date_iso8601 p) "".

(** [InmateProfile::build] *)
Definition inmate_profile_build (fetch_img : string -> ImgResponse)
  (html : Html) (sys_id : string) : result InmateProfile :=
  let profile := set_scil_sys_id default_profile (Some sys_id) in
  let profile := set_core_profile_data profile html in
  let profile :=
    match img_src html with
    | None => profile
    | Some img_url =>
        match fetch_img ("https:" ++ img_url)%string with
        | None => profile
        | Some (success, None) => profile
        | Some (success, Some blob) =>
            set_img_blob profile (if success then Some blob else None)
        end
    end in
  if is_core_empty profile then Err ParseError else Ok profile.

Record Bond := {
  bond_type : string;
  bond_amount : N;   (** a [u64] *)
}.

Record BondInformation := { bonds : list Bond }.

(** One bond row: [td.nth(1)] is the type, the next [td.nth(0)] (the
    third cell) is the amount; a row missing either is skipped. *)
Definition bond_of_row (row : list string) : option Bond :=
  match row with
  | _ :: ty :: amt :: _ =>
      Some {| bond_type := ty; bond_amount := Money.dollars_to_cents amt |}
  | _ => None
  end.

(** [BondInformation::build]: an empty bond list is only logged. *)
Definition bond_information_build (html : Html) : result BondInformation :=
  let bonds :=
    List.flat_map (fun row => match bond_of_row row with
                              | Some b => [b]
                              | None => []
                              end) (bond_rows html) in
  Ok {| bonds := bonds |}.

(** [BondInformation::get_total_bond_description]. [str::to_lowercase]
    agrees with [to_ascii_lowercase] on the ASCII strings modelled here.
    [sum::<u64>()] past [u64::MAX] panics when overflow checks are on
    and wraps when they are off; the wrapping sum is modelled. *)
Definition get_total_bond_description (bi : BondInformation) : string :=
  let unbondable :=
    List.existsb (fun b => String.eqb (to_ascii_lowercase (bond_type b)) "unbondable")
                 (bonds bi) in
  if unbondable then "unbondable"
  else
    let amount_pennies :=
      List.fold_left (fun acc b => ((acc + bond_amount b) mod 2 ^ 64)%N) (bonds bi) 0%N in
    Money.cents_to_dollars amount_pennies.

Inductive ChargeGrade := Felony | Misdemeanor.

(** [ChargeGrade::from_string]: unknown grades default to
    [Misdemeanor]. *)
Definition charge_grade_from_string (s : string) : ChargeGrade :=
  let l := to_ascii_lowercase s in
  if String.eqb l "felony" then Felony
  else if String.eqb l "misdemeanor" then Misdemeanor
  else Misdemeanor.

(** [impl Display for ChargeGrade] *)
Definition charge_grade_to_string (g : ChargeGrade) : string :=
  match g with Felony => "Felony" | Misdemeanor => "Misdemeanor" end.

Record Charge := {
  description : string;
  grade : ChargeGrade;
  offense_date : string;
}.

(** The Rust field is [charges]; renamed here because [Record_] below
    has a field of that name. *)
Record ChargeInformation := { charge_list : list Charge }.

(** One charge row: description from the second cell, grade from the
    third, offense date from the fourth; missing cells default, the
    date to [now] ([chrono::Utc::now().to_string()]). *)
Definition charge_of_row (now : string) (row : list string) : Charge :=
  match row with
  | _ :: d :: rest =>
      let description := trim d in
      match rest with
      | [] => {| description := description; grade := Misdemeanor; offense_date := now |}
      | g :: rest' =>
          let grade := charge_grade_from_string (trim g) in
          match rest' with
          | [] => {| description := description; grade := grade; offense_date := now |}
          | o :: _ => {| description := description; grade := grade; offense_date := trim o |}
          end
      end
  | _ => {| description := ""; grade := Misdemeanor; offense_date := now |}
  end.

(** [ChargeInformation::build]: zero charges is a [ParseError]. *)
Definition charge_information_build (now : string) (html : Html)
  : result ChargeInformation :=
  let charges := List.map (charge_of_row now) (charge_rows html) in
  match charges with
  | [] => Err ParseError
  | _ => Ok {| charge_list := charges |}
  end.

(** The Rust struct [Record] ([Record] is a keyword here). *)
Record Record_ := {
  url : string;
  profile : InmateProfile;
  bond : BondInformation;
  charges : ChargeInformation;
}.

Definition inmates_root : string := "https://www.scottcountyiowa.us/sheriff/inmates.php".

(** The body of [Record::build] once the detail page is parsed: the
    struct literal evaluates [profile], [bond], [charges] in order. *)
Definition record_build_from_html (now : string) (fetch_img : string -> ImgResponse)
  (html : Html) (sys_id : string) : result Record_ :=
  let request_url := (inmates_root ++ sys_id)%string in
  match inmate_profile_build fetch_img html sys_id with
  | Err e => Err e
  | Ok profile =>
      match bond_information_build html with
      | Err e => Err e
      | Ok bond =>
          match charge_information_build now html with
          | Err e => Err e
          | Ok charges =>
              Ok {| url := request_url; profile := profile; bond := bond; charges := charges |}
          end
      end
  end.

(** [Record::build]: the page fetch ([None] for a transport failure,
    mapped to [NetworkError]) followed by the extraction. *)
Definition record_build (now : string) (fetch_doc : string -> option Html)
  (fetch_img : string -> ImgResponse) (sys_id : string) : result Record_ :=
  match fetch_doc (inmates_root ++ sys_id)%string with
  | None => Err NetworkError
  | Some html => record_build_from_html now fetch_img html sys_id
  end.

(** [{:x}] of a digest: two lowercase hex digits per byte. *)
Definition hex_digit (n : N) : ascii :=
  if (n <? 10)%N then ascii_of_N (48 + n) else ascii_of_N (87 + n).

Definition lower_hex (h : bytes) : string :=
  of_chars (List.flat_map (fun b => let n := Byte.to_N b in
                                    [hex_digit (n / 16); hex_digit (n mod 16)]) h).

(** UTF-8 bytes of an ASCII string. *)
Definition utf8_bytes (s : string) : bytes := List.map byte_of_ascii (chars s).

(** [InmateProfile::get_hash_on_core_attributes]; [sha256] is the
    digest of the [sha2] crate. *)
Definition get_hash_on_core_attributes (sha256 : bytes -> bytes) (p : InmateProfile)
  : string :=
  let inmate_img_hash_input :=
    (first_name p ++ last_name p ++ dob p ++ booking_date_iso8601 p)%string in
  ("mugshots/" ++ lower_hex (sha256 (utf8_bytes inmate_img_hash_input)))%string.

End Inmate.

(* ------------------------------------------------------------------ *)
(** ** The relational store (the schema of serialize.rs) *)

Module Store.

(** A row of [inmate]. [dob] and [booking_date] hold the values of the
    [date] and [timestamptz] columns. *)
Record InmateRow := {
  id : Z;
  first_name : string;
  middle_name : option string;
  last_name : string;
  affix : option string;
  permanent_id : option string;
  sex : option string;
  dob : Z;
  arresting_agency : option string;
  booking_date : Z;
  booking_number : option string;
  height : option string;
  weight : option string;
  race : option string;
  eye_color : option string;
  img_url : option string;
  scil_sysid : option string;
  embedding : option (list Z);
}.

(** The columns of [UNIQUE (first_name, last_name, dob, booking_date)]. *)
Definition inmate_key (r : InmateRow) : string * string * Z * Z :=
  (first_name r, last_name r, dob r, booking_date r).

Record AliasRow := { alias_row_id : Z; alias_text : string }.
Record BondRow := {
  bond_row_id : Z; bond_inmate_id : Z; bond_type_col : string; amount_pennies : Z }.
Record ChargeRow := {
  charge_row_id : Z; charge_inmate_id : Z; charge_description : string;
  charge_grade : string; charge_offense_date : string }.
Record ImgRow := { img_row_id : Z; img_inmate_id : Z; img_col : option (list Byte.byte) }.

(** The six tables, in insertion order, and the [SERIAL] sequences
    (the next value each [nextval] returns). Sequences are not
    transactional: a rolled-back insert still consumes its value. *)
Record Db := {
  inmate_rows : list InmateRow;
  alias_rows : list AliasRow;
  inmate_alias_rows : list (Z * Z);
  bond_rows : list BondRow;
  charge_rows : list ChargeRow;
  img_rows : list ImgRow;
  inmate_id_seq : Z;
  alias_id_seq : Z;
  bond_id_seq : Z;
  charge_id_seq : Z;
  img_id_seq : Z;
}.

Definition mk_db ir ar iar br cr imr s1 s2 s3 s4 s5 : Db := {|
  inmate_rows := ir; alias_rows := ar; inmate_alias_rows := iar; bond_rows := br;
  charge_rows := cr; img_rows := imr; inmate_id_seq := s1; alias_id_seq := s2;
  bond_id_seq := s3; charge_id_seq := s4; img_id_seq := s5 |}.

Definition set_inmate_rows (d : Db) (l : list InmateRow) (seq : Z) : Db :=
  mk_db l (alias_rows d) (inmate_alias_rows d) (bond_rows d) (charge_rows d) (img_rows d)
        seq (alias_id_seq d) (bond_id_seq d) (charge_id_seq d) (img_id_seq d).
Definition set_alias_rows (d : Db) (l : list AliasRow) (seq : Z) : Db :=
  mk_db (inmate_rows d) l (inmate_alias_rows d) (bond_rows d) (charge_rows d) (img_rows d)
        (inmate_id_seq d) seq (bond_id_seq d) (charge_id_seq d) (img_id_seq d).
Definition set_inmate_alias_rows (d : Db) (l : list (Z * Z)) : Db :=
  mk_db (inmate_rows d) (alias_rows d) l (bond_rows d) (charge_rows d) (img_rows d)
        (inmate_id_seq d) (alias_id_seq d) (bond_id_seq d) (charge_id_seq d) (img_id_seq d).
Definition set_bond_rows (d : Db) (l : list BondRow) (seq : Z) : Db :=
  mk_db (inmate_rows d) (alias_rows d) (inmate_alias_rows d) l (charge_rows d) (img_rows d)
        (inmate_id_seq d) (alias_id_seq d) seq (charge_id_seq d) (img_id_seq d).
Definition set_charge_rows (d : Db) (l : list ChargeRow) (seq : Z) : Db :=
  mk_db (inmate_rows d) (alias_rows d) (inmate_alias_rows d) (bond_rows d) l (img_rows d)
        (inmate_id_seq d) (alias_id_seq d) (bond_id_seq d) seq (img_id_seq d).
Definition set_img_rows (d : Db) (l : list ImgRow) (seq : Z) : Db :=
  mk_db (inmate_rows d) (alias_rows d) (inmate_alias_rows d) (bond_rows d) (charge_rows d) l
        (inmate_id_seq d) (alias_id_seq d) (bond_id_seq d) (charge_id_seq d) seq.

(** [ROLLBACK]: the tables as they were at [BEGIN], the sequences as
    they are now. *)
Definition rollback (before now : Db) : Db :=
  mk_db (inmate_rows before) (alias_rows before) (inmate_alias_rows before)
        (bond_rows before) (charge_rows before) (img_rows before)
        (inmate_id_seq now) (alias_id_seq now) (bond_id_seq now)
        (charge_id_seq now) (img_id_seq now).

Definition inmate_ids (d : Db) : list Z := List.map id (inmate_rows d).
Definition alias_ids (d : Db) : list Z := List.map alias_row_id (alias_rows d).

(** An open transaction: its working copy of the store and whether a
    failed statement has aborted it (Postgres then refuses every
    further statement until the transaction ends). *)
Record Txn := { txn_db : Db; aborted : bool }.

(** Statements over a transaction, with Rust's [?] as [bind]. *)
Definition M (A : Type) : Type := Txn -> result A * Txn.

Definition ret {A} (a : A) : M A := fun t => (Ok a, t).
Definition bind {A B} (m : M A) (k : A -> M B) : M B :=
  fun t => match m t with
           | (Ok a, t') => k a t'
           | (Err e, t') => (Err e, t')
           end.

Notation "'let*' x := m 'in' k" := (bind m (fun x => k))
  (at level 200, x name, m at level 100, k at level 200).

Definition aborted_error : Error :=
  PostgresError "current transaction is aborted, commands ignored until end of transaction block".

(** One SQL statement: [stmt] returns its result and the store after
    it (after a failure, the store with the sequence values it
    consumed); a failure aborts the transaction. *)
Definition exec {A} (stmt : Db -> result A * Db) : M A :=
  fun t =>
    if aborted t then (Err aborted_error, t)
    else match stmt (txn_db t) with
         | (Ok a, d) => (Ok a, {| txn_db := d; aborted := false |})
         | (Err e, d) => (Err e, {| txn_db := d; aborted := true |})
         end.

End Store.

(* ------------------------------------------------------------------ *)
(** ** serialize.rs *)

Module Serialize.
Import Store.

Record S3Client := { s3_region : string }.
Record OaiClient := { oai_api_base : string }.

(** The collaborators outside the crate. *)
Record Env := {
  (** the digest of the [sha2] crate *)
  sha256 : list Byte.byte -> list Byte.byte;
  (** Postgres' [$7::date] *)
  cast_date : string -> option Z;
  (** Postgres' [$9::TIMESTAMP WITHOUT TIME ZONE AT TIME ZONE 'America/Chicago'] *)
  cast_timestamp : string -> option Z;
  (** [s3_utils::upload_img_to_env_bucket_s3(client, bytes, key)] succeeds *)
  upload_img_to_env_bucket_s3 : S3Client -> list Byte.byte -> string -> bool;
  (** the embedding the OpenAI request returns for a record; [None] when it fails *)
  openai_embedding : OaiClient -> Inmate.Record_ -> option (list Z);
}.

Definition with_img_url (r : InmateRow) (u : option string) : InmateRow := {|
  id := id r; first_name := first_name r; middle_name := middle_name r;
  last_name := last_name r; affix := affix r; permanent_id := permanent_id r;
  sex := sex r; dob := dob r; arresting_agency := arresting_agency r;
  booking_date := booking_date r; booking_number := booking_number r;
  height := height r; weight := weight r; race := race r; eye_color := eye_color r;
  img_url := u; scil_sysid := scil_sysid r; embedding := embedding r |}.

(** The [INSERT INTO inmate ... RETURNING id] of [serialize_profile].
    The primary key is not checked: ids only come from the sequence. *)
Definition insert_inmate (env : Env) (p : Inmate.InmateProfile) (s3_img_url : string)
  (d : Db) : result Z * Db :=
  match cast_date env (Inmate.dob p), cast_timestamp env (Inmate.booking_date_iso8601 p) with
  | Some dob_v, Some booking_v =>
      let new_id := inmate_id_seq d in
      let row := {|
        id := new_id; first_name := Inmate.first_name p; middle_name := Inmate.middle_name p;
        last_name := Inmate.last_name p; affix := Inmate.affix p;
        permanent_id := Inmate.perm_id p; sex := Inmate.sex p; dob := dob_v;
        arresting_agency := Inmate.arrest_agency p; booking_date := booking_v;
        booking_number := Inmate.booking_number p; height := Inmate.height p;
        weight := Inmate.weight p; race := Inmate.race p; eye_color := Inmate.eye_color p;
        img_url := Some s3_img_url; scil_sysid := Inmate.scil_sys_id p;
        embedding := Inmate.embedding p |} in
      let d1 := set_inmate_rows d (inmate_rows d) (new_id + 1) in
      if String.eqb (Inmate.first_name p) "" || String.eqb (Inmate.last_name p) "" then
        (Err (PostgresError "new row violates check constraint"), d1)
      else if match Inmate.embedding p with
              | Some v => negb (Nat.eqb (length v) 1536)
              | None => false
              end then
        (Err (PostgresError "expected 1536 dimensions"), d1)
      else if List.existsb (fun r => bool_decide (inmate_key r = inmate_key row)) (inmate_rows d)
      then (Err (PostgresError "duplicate key value violates unique constraint"), d1)
      else (Ok new_id, set_inmate_rows d (inmate_rows d ++ [row]) (new_id + 1))
  | _, _ => (Err (PostgresError "invalid input syntax"), d)
  end.

(** [UPDATE inmate SET img_url = $1 WHERE id = $2] *)
Definition update_img_url (inmate_id : Z) (u : string) (d : Db) : result unit * Db :=
  (Ok tt, set_inmate_rows d
            (List.map (fun r => if Z.eqb (id r) inmate_id then with_img_url r (Some u) else r)
                      (inmate_rows d))
            (inmate_id_seq d)).

(** The upsert of [serialize_alias]: [INSERT ... ON CONFLICT (alias)
    DO UPDATE SET alias = EXCLUDED.alias RETURNING id]. The default
    [nextval] is consumed before the conflict is detected. *)
Definition upsert_alias (alias : string) (d : Db) : result Z * Db :=
  let new_id := alias_id_seq d in
  if String.eqb alias "" then
    (Err (PostgresError "new row violates check constraint"),
     set_alias_rows d (alias_rows d) (new_id + 1))
  else match List.find (fun r => String.eqb (alias_text r) alias) (alias_rows d) with
       | Some r => (Ok (alias_row_id r), set_alias_rows d (alias_rows d) (new_id + 1))
       | None =>
           (Ok new_id, set_alias_rows d (alias_rows d ++ [{| alias_row_id := new_id;
                                                             alias_text := alias |}])
                                     (new_id + 1))
       end.

Definition fk_violation : Error := PostgresError "violates foreign key constraint".

(** [INSERT INTO inmate_alias]: both foreign keys and the primary key
    [(inmate_id, alias_id)]. *)
Definition insert_inmate_alias (inmate_id alias_id : Z) (d : Db) : result unit * Db :=
  if negb (List.existsb (Z.eqb inmate_id) (inmate_ids d)) then (Err fk_violation, d)
  else if negb (List.existsb (Z.eqb alias_id) (alias_ids d)) then (Err fk_violation, d)
  else if List.existsb (fun ia => Z.eqb (fst ia) inmate_id && Z.eqb (snd ia) alias_id)
                       (inmate_alias_rows d)
  then (Err (PostgresError "duplicate key value violates unique constraint"), d)
  else (Ok tt, set_inmate_alias_rows d (inmate_alias_rows d ++ [(inmate_id, alias_id)])).

Definition insert_img (inmate_id : Z) (img : option (list Byte.byte)) (d : Db)
  : result unit * Db :=
  let new_id := img_id_seq d in
  if negb (List.existsb (Z.eqb inmate_id) (inmate_ids d)) then
    (Err fk_violation, set_img_rows d (img_rows d) (new_id + 1))
  else (Ok tt, set_img_rows d (img_rows d ++ [{| img_row_id := new_id; img_inmate_id := inmate_id;
                                                 img_col := img |}]) (new_id + 1)).

Definition insert_bond (inmate_id : Z) (type_ : string) (amount : Z) (d : Db)
  : result unit * Db :=
  let new_id := bond_id_seq d in
  if negb (List.existsb (Z.eqb inmate_id) (inmate_ids d)) then
    (Err fk_violation, set_bond_rows d (bond_rows d) (new_id + 1))
  else (Ok tt, set_bond_rows d (bond_rows d ++ [{| bond_row_id := new_id; bond_inmate_id := inmate_id;
                                                   bond_type_col := type_;
                                                   amount_pennies := amount |}]) (new_id + 1)).

Definition insert_charge (inmate_id : Z) (c : Inmate.Charge) (d : Db) : result unit * Db :=
  let new_id := charge_id_seq d in
  let grade := match Inmate.grade c with Inmate.Felony => "Felony" | Inmate.Misdemeanor => "Misdemeanor" end in
  if negb (List.existsb (Z.eqb inmate_id) (inmate_ids d)) then
    (Err fk_violation, set_charge_rows d (charge_rows d) (new_id + 1))
  else (Ok tt, set_charge_rows d (charge_rows d ++ [{| charge_row_id := new_id;
                                                       charge_inmate_id := inmate_id;
                                                       charge_description := Inmate.description c;
                                                       charge_grade := grade;
                                                       charge_offense_date := Inmate.offense_date c |}])
                                (new_id + 1)).

(** Rust's [u64 as i32]: keep the low 32 bits, read them as signed. *)
Definition u64_as_i32 (a : N) : Z :=
  let m := (Z.of_N a mod 2 ^ 32)%Z in
  if (2 ^ 31 <=? m)%Z then (m - 2 ^ 32)%Z else m.

(** [has_s3_upload_criteria] *)
Definition has_s3_upload_criteria (p : Inmate.InmateProfile) (aws_s3_client : option S3Client)
  : bool :=
  match Inmate.img_blob p with
  | Some blob => negb (match blob with [] => true | _ => false end)
  | None => false
  end && match aws_s3_client with Some _ => true | None => false end.

(** [serialize_bond]: the amount is bound as [bond.bond_amount as i32]. *)
Definition serialize_bond (b : Inmate.Bond) (inmate_id : Z) : M unit :=
  exec (insert_bond inmate_id (Inmate.bond_type b) (u64_as_i32 (Inmate.bond_amount b))).

Definition serialize_charge (c : Inmate.Charge) (inmate_id : Z) : M unit :=
  exec (insert_charge inmate_id c).

Definition serialize_alias (alias : string) : M Z := exec (upsert_alias alias).

(** [Itertools::unique]: first occurrences, in order. *)
Fixpoint unique_from (seen : list string) (l : list string) : list string :=
  match l with
  | [] => []
  | x :: rest =>
      if List.existsb (String.eqb x) seen then unique_from seen rest
      else x :: unique_from (x :: seen) rest
  end.

Definition unique (l : list string) : list string := unique_from [] l.

(** The alias loop of [serialize_profile]: empty names are skipped, a
    failed upsert is logged and skipped, a failed join insert is
    propagated. *)
Fixpoint serialize_aliases (inmate_id : Z) (l : list string) : M unit :=
  match l with
  | [] => ret tt
  | alias :: rest =>
      if String.eqb alias "" then serialize_aliases inmate_id rest
      else fun t =>
        match serialize_alias alias t with
        | (Err _, t') => serialize_aliases inmate_id rest t'
        | (Ok alias_id, t') =>
            (let* _ := exec (insert_inmate_alias inmate_id alias_id) in
             serialize_aliases inmate_id rest) t'
        end
  end.

(** [serialize_profile] *)
Definition serialize_profile (env : Env) (p : Inmate.InmateProfile)
  (aws_s3_client : option S3Client) : M Z :=
  let has_criteria := has_s3_upload_criteria p aws_s3_client in
  let s3_img_url :=
    if has_criteria then Inmate.get_hash_on_core_attributes (sha256 env) p else ""%string in
  let* inmate_id := exec (insert_inmate env p s3_img_url) in
  let* _ :=
    (if has_criteria then
       match aws_s3_client, Inmate.img_blob p with
       | Some client, Some blob =>
           if upload_img_to_env_bucket_s3 env client blob s3_img_url then ret tt
           else exec (update_img_url inmate_id "")
       | _, _ => ret tt
       end
     else ret tt) in
  let* _ :=
    serialize_aliases inmate_id
      (unique (match Inmate.aliases p with Some v => v | None => [] end)) in
  let* _ := exec (insert_img inmate_id (Inmate.img_blob p)) in
  ret inmate_id.

Fixpoint serialize_bonds (inmate_id : Z) (l : list Inmate.Bond) : M unit :=
  match l with
  | [] => ret tt
  | b :: rest => let* _ := serialize_bond b inmate_id in serialize_bonds inmate_id rest
  end.

Fixpoint serialize_charges (inmate_id : Z) (l : list Inmate.Charge) : M unit :=
  match l with
  | [] => ret tt
  | c :: rest => let* _ := serialize_charge c inmate_id in serialize_charges inmate_id rest
  end.

(** [serialize_record]: one transaction; [commit] on success, an
    implicit rollback when the transaction is dropped on an error. *)
Definition serialize_record (env : Env) (record : Inmate.Record_)
  (aws_s3_client : option S3Client) (d : Db) : result Z * Db :=
  let body :=
    let* inmate_id := serialize_profile env (Inmate.profile record) aws_s3_client in
    let* _ := serialize_bonds inmate_id (Inmate.bonds (Inmate.bond record)) in
    let* _ := serialize_charges inmate_id (Inmate.charge_list (Inmate.charges record)) in
    ret inmate_id in
  match body {| txn_db := d; aborted := false |} with
  | (Ok inmate_id, t) =>
      (* Postgres answers COMMIT in an aborted transaction with ROLLBACK,
         not with an error: [commit()] still returns [Ok]. *)
      if aborted t then (Ok inmate_id, rollback d (txn_db t))
      else (Ok inmate_id, txn_db t)
  | (Err e, t) => (Err e, rollback d (txn_db t))
  end.

Definition set_record_embedding (r : Inmate.Record_) (v : list Z) : Inmate.Record_ := {|
  Inmate.url := Inmate.url r; Inmate.profile := Inmate.set_embedding (Inmate.profile r) (Some v);
  Inmate.bond := Inmate.bond r; Inmate.charges := Inmate.charges r |}.

(** The embedding step of [serialize_records]; a failure is logged. *)
Definition embedding_step (env : Env) (oai_client : option OaiClient) (r : Inmate.Record_)
  : Inmate.Record_ :=
  match Inmate.embedding (Inmate.profile r), oai_client with
  | None, Some client =>
      match openai_embedding env client r with
      | Some v => set_record_embedding r v
      | None => r
      end
  | _, _ => r
  end.

(** The loop of [serialize_records] with its two counters. The final
    [inmate_count] query only feeds the log line and is not modelled. *)
Fixpoint serialize_records_loop (env : Env) (records : list Inmate.Record_)
  (oai_client : option OaiClient) (aws_s3_client : option S3Client)
  (inserted_count failed_count : nat) (d : Db) : nat * nat * Db :=
  match records with
  | [] => (inserted_count, failed_count, d)
  | record :: rest =>
      let record := embedding_step env oai_client record in
      match serialize_record env record aws_s3_client d with
      | (Ok _, d') =>
          serialize_records_loop env rest oai_client aws_s3_client (S inserted_count) failed_count d'
      | (Err _, d') =>
          serialize_records_loop env rest oai_client aws_s3_client inserted_count (S failed_count) d'
      end
  end.

Definition serialize_records (env : Env) (records : list Inmate.Record_)
  (oai_client : option OaiClient) (aws_s3_client : option S3Client) (d : Db) : nat * nat * Db :=
  serialize_records_loop env records oai_client aws_s3_client 0 0 d.

(** [update_null_img_record] (the backfill of one row): the [UPDATE]
    runs on its own, outside any transaction. *)
Definition update_null_img_record (env : Env) (inmate_id : Z) (record : Inmate.Record_)
  (aws_s3_client : option S3Client) (d : Db) : result unit * Db :=
  let p := Inmate.profile record in
  match Inmate.img_blob p with
  | None => (Err (InternalError "Can't update null img record because latest parse still didn't have image."), d)
  | Some _ =>
      if negb (has_s3_upload_criteria p aws_s3_client) then
        (Err (InternalError "Record or env does not meet S3 upload criteria."), d)
      else
        let s3_img_url := Inmate.get_hash_on_core_attributes (sha256 env) p in
        match aws_s3_client, Inmate.img_blob p with
        | Some client, Some blob =>
            if upload_img_to_env_bucket_s3 env client blob s3_img_url
            then update_img_url inmate_id s3_img_url d
            else (Err (S3Error "aws_sdk_3 SdkError"), d)
        | _, _ => (Err (InternalError "Record or env does not meet S3 upload criteria."), d)
        end
  end.

(** The loop of [update_null_img_records] over [(inmate_id, record)]
    pairs with its two counters; a failed update is logged and
    skipped. *)
Fixpoint update_null_img_records_loop (env : Env) (records : list (Z * Inmate.Record_))
  (aws_s3_client : option S3Client) (updated_count failed_count : nat) (d : Db)
  : nat * nat * Db :=
  match records with
  | [] => (updated_count, failed_count, d)
  | (idx, record) :: rest =>
      match update_null_img_record env idx record aws_s3_client d with
      | (Ok _, d') =>
          update_null_img_records_loop env rest aws_s3_client (S updated_count) failed_count d'
      | (Err _, d') =>
          update_null_img_records_loop env rest aws_s3_client updated_count (S failed_count) d'
      end
  end.

(** [update_null_img_records]: the [Ok] value carries the two counters
    the final log line reports. *)
Definition update_null_img_records (env : Env) (records : list (Z * Inmate.Record_))
  (aws_s3_client : option S3Client) (d : Db) : result (nat * nat) * Db :=
  match aws_s3_client with
  | None => (Err (InternalError "No S3 client found. Cannot update null img records."), d)
  | Some _ =>
      let '(updated_count, failed_count, d') :=
        update_null_img_records_loop env records aws_s3_client 0 0 d in
      (Ok (updated_count, failed_count), d')
  end.

End Serialize.

(* ------------------------------------------------------------------ *)
(** ** utils.rs: the incremental filter *)

Module Utils.
Import Store.

(** [ORDER BY id DESC]: a row goes before every row of smaller id. *)
Definition id_desc (r1 r2 : InmateRow) : Prop := (id r2 <= id r1)%Z.
#[global] Instance id_desc_dec : RelDecision id_desc.
Proof. intros r1 r2. unfold id_desc. apply _. Defined.

(** [SELECT id, scil_sysid, img_url FROM inmate ORDER BY id DESC LIMIT $1];
    Postgres rejects a negative [LIMIT]. *)
Definition recent_records (n : Z) (d : Db) : result (list InmateRow) :=
  if (n <? 0)%Z then Err (PostgresError "LIMIT must not be negative")
  else Ok (take (Z.to_nat n) (merge_sort id_desc (inmate_rows d))).

(** [img_url.is_none() || img_url.unwrap().is_empty()] *)
Definition img_url_missing (r : InmateRow) : bool :=
  match img_url r with None => true | Some u => String.eqb u "" end.

(** One iteration of the loop over [recent_records]. *)
Definition classify_record (acc : gset string * gmap string Z) (record : InmateRow)
  : gset string * gmap string Z :=
  let '(blacklist, updatelist) := acc in
  match scil_sysid record with
  | Some sys_id =>
      if img_url_missing record then (blacklist, <[sys_id := id record]> updatelist)
      else ({[sys_id]} ∪ blacklist, updatelist)
  | None => acc
  end.

(** [get_blacklist_and_updatelist]: (blacklist, updatelist). *)
Definition get_blacklist_and_updatelist (n : Z) (d : Db)
  : result (gset string * gmap string Z) :=
  match recent_records n d with
  | Ok recent => Ok (List.fold_left classify_record recent (∅, ∅))
  | Err e => Err e
  end.

End Utils.

(* ------------------------------------------------------------------ *)
(** ** lib.rs: the discovery loop of [fetch_records] *)

Module Lib.

(** The loop over [sys_ids]: [build] is [Record::build] at one natural
    key; a failure is logged and skipped. Besides the records, the loop
    returns the natural keys it called [Record::build] on, in order. The
    ten-second sleep between iterations is not modelled. *)
Fixpoint fetch_records_loop (build : string -> result Inmate.Record_) (stop_early : bool)
  (sys_ids : list string) (records : list Inmate.Record_) (attempted : list string)
  : list Inmate.Record_ * list string :=
  match sys_ids with
  | [] => (records, attempted)
  | sys_id :: rest =>
      let records := match build sys_id with
                     | Ok record => records ++ [record]
                     | Err _ => records
                     end in
      let attempted := attempted ++ [sys_id] in
      if stop_early then (records, attempted)
      else fetch_records_loop build stop_early rest records attempted
  end.

(** [fetch_records]: [fetch_inmate_sysids] is the listing request;
    [stop_early] is whether [STOP_EARLY] is set. *)
Definition fetch_records (fetch_inmate_sysids : result (list string))
  (build : string -> result Inmate.Record_) (stop_early : bool)
  : result (list Inmate.Record_ * list string) :=
  match fetch_inmate_sysids with
  | Err _ => Err NetworkError
  | Ok sys_ids => Ok (fetch_records_loop build stop_early sys_ids [] [])
  end.

End Lib.

(* ================================================================== *)
(** * Properties *)

(* ------------------------------------------------------------------ *)
(** ** Money: the decimal round trip *)

Module MoneyFacts.
Import Text Money.

Definition digits_value (acc : N) (l : list ascii) : N :=
  List.fold_left (fun a c => (a * 10 + digit_value c)%N) l acc.

Lemma digits_value_acc acc l :
  digits_value acc l = (acc * 10 ^ N.of_nat (length l) + digits_value 0 l)%N.
Proof.
  unfold digits_value. revert acc. induction l as [|c l IH]; intros acc; simpl.
  - lia.
  - rewrite (IH (acc * 10 + digit_value c)%N), (IH (0 * 10 + digit_value c)%N).
    rewrite Nat2N.inj_succ, N.pow_succ_r'. lia.
Qed.

Lemma digits_value_app acc l1 l2 :
  digits_value acc (l1 ++ l2) = digits_value (digits_value acc l1) l2.
Proof. unfold digits_value. apply fold_left_app. Qed.

Lemma digits_value_ge acc l : (acc <= digits_value acc l)%N.
Proof. rewrite digits_value_acc. destruct l; simpl length; nia. Qed.

Lemma digit_char_spec d :
  (d < 10)%N -> is_digit (digit_char d) = true /\ digit_value (digit_char d) = d.
Proof.
  intros Hd.
  assert (d = 0 \/ d = 1 \/ d = 2 \/ d = 3 \/ d = 4 \/ d = 5 \/ d = 6
          \/ d = 7 \/ d = 8 \/ d = 9)%N as Hc by lia.
  repeat destruct Hc as [-> | Hc]; subst; split; reflexivity.
Qed.

Lemma show_N_fuel_digits f n : Forall (fun c => is_digit c = true) (show_N_fuel f n).
Proof.
  revert n. induction f as [|f IH]; intros n; simpl; [constructor|].
  destruct (n <? 10)%N eqn:Hn.
  - apply N.ltb_lt in Hn. constructor; [apply digit_char_spec; lia | constructor].
  - apply Forall_app. split; [apply IH|].
    constructor; [apply digit_char_spec, N.mod_lt; lia | constructor].
Qed.

Lemma show_N_fuel_value f n :
  (n < 2 ^ N.of_nat f)%N -> digits_value 0 (show_N_fuel f n) = n.
Proof.
  revert n. induction f as [|f IH]; intros n Hn; simpl.
  - simpl in Hn. unfold digits_value. simpl. lia.
  - destruct (n <? 10)%N eqn:Hlt.
    + apply N.ltb_lt in Hlt. unfold digits_value. simpl.
      destruct (digit_char_spec n Hlt) as [_ ->]. lia.
    + apply N.ltb_ge in Hlt.
      rewrite digits_value_app, IH.
      * unfold digits_value. simpl.
        destruct (digit_char_spec (n mod 10) (N.mod_lt n 10 ltac:(lia))) as [_ ->].
        pose proof (N.div_mod n 10 ltac:(lia)). lia.
      * rewrite Nat2N.inj_succ, N.pow_succ_r' in Hn.
        apply N.Div0.div_lt_upper_bound. nia.
Qed.

Lemma pos_size_nat_bound p : (N.pos p < 2 ^ N.of_nat (Pos.size_nat p))%N.
Proof.
  induction p as [p IH|p IH|]; simpl Pos.size_nat; try (simpl; lia);
    rewrite Nat2N.inj_succ, N.pow_succ_r'.
  - change (N.pos p~1) with (2 * N.pos p + 1)%N. lia.
  - change (N.pos p~0) with (2 * N.pos p)%N. lia.
Qed.

Lemma size_nat_bound n : (n < 2 ^ N.of_nat (N.size_nat n))%N.
Proof. destruct n as [|p]; [simpl; lia | apply pos_size_nat_bound]. Qed.

Lemma show_N_value n : digits_value 0 (show_N n) = n.
Proof.
  unfold show_N. apply show_N_fuel_value.
  pose proof (size_nat_bound n). rewrite Nat2N.inj_succ, N.pow_succ_r'. lia.
Qed.

Lemma show_N_digits n : Forall (fun c => is_digit c = true) (show_N n).
Proof. apply show_N_fuel_digits. Qed.

Lemma show_N_cons n : exists c rest, show_N n = c :: rest.
Proof.
  unfold show_N. simpl. destruct (n <? 10)%N; [eauto|].
  destruct (show_N_fuel (N.size_nat n) (n / 10)) as [|c rest]; simpl; eauto.
Qed.

Lemma show_N_length_lt_100 n : (n < 100)%N -> (length (show_N n) <= 2)%nat.
Proof.
  intros Hn. unfold show_N. simpl.
  destruct (n <? 10)%N eqn:Hlt; [simpl; lia|].
  apply N.ltb_ge in Hlt.
  destruct n as [|p]; [lia|]. simpl N.size_nat.
  destruct (Pos.size_nat p) as [|f] eqn:Hs; [destruct p; discriminate|].
  simpl. replace ((N.pos p / 10 <? 10)%N) with true; [simpl; lia|].
  symmetry. apply N.ltb_lt. apply N.Div0.div_lt_upper_bound. lia.
Qed.

Lemma repeat_zero_value k : digits_value 0 (List.repeat "0"%char k) = 0%N.
Proof.
  unfold digits_value. induction k as [|k IH]; simpl; [reflexivity|]. exact IH.
Qed.

Lemma pad_zero_value l : digits_value 0 (pad_zero 2 l) = digits_value 0 l.
Proof. unfold pad_zero. rewrite digits_value_app, repeat_zero_value. reflexivity. Qed.

Lemma filter_digits_id l :
  Forall (fun c => is_digit c = true) l -> List.filter is_digit l = l.
Proof. induction 1 as [|c l Hc _ IH]; simpl; [reflexivity|]. rewrite Hc, IH. reflexivity. Qed.

Lemma parse_u64_digits_value acc l :
  Forall (fun c => is_digit c = true) l -> (digits_value acc l <= u64_max)%N ->
  parse_u64_digits acc l = Some (digits_value acc l).
Proof.
  intros Hd. revert acc. induction Hd as [|c l Hc _ IH]; intros acc Hmax; simpl.
  - reflexivity.
  - rewrite Hc.
    pose proof (digits_value_ge (acc * 10 + digit_value c) l) as Hge.
    unfold digits_value in Hmax, Hge. simpl in Hmax.
    destruct (N.leb_spec (acc * 10 + digit_value c) u64_max); [|lia].
    apply IH. exact Hmax.
Qed.

(** Claim C6: for every [u64] amount [a], formatting it with
    [cents_to_dollars] and reading it back with [dollars_to_cents]
    (strip the non-digits, parse as [u64]) yields [a]. *)
Theorem cents_to_dollars_roundtrip (a : N) :
  (a <= u64_max)%N -> dollars_to_cents (cents_to_dollars a) = a.
Proof.
  intros Ha. unfold dollars_to_cents, cents_to_dollars, chars, of_chars.
  rewrite list_ascii_of_string_of_list_ascii.
  set (pad := pad_zero 2 (show_N (a mod 100))).
  assert (Hpad : Forall (fun c => is_digit c = true) pad).
  { unfold pad, pad_zero. apply Forall_app. split; [|apply show_N_digits].
    apply Forall_forall. intros c Hc. apply list_elem_of_In, repeat_spec in Hc. subst. reflexivity. }
  assert (Hlen : length pad = 2%nat).
  { unfold pad, pad_zero. rewrite length_app, repeat_length.
    pose proof (show_N_length_lt_100 (a mod 100) (N.mod_lt a 100 ltac:(lia))). lia. }
  assert (Hall : Forall (fun c => is_digit c = true) (show_N (a / 100) ++ pad))
    by (apply Forall_app; split; [apply show_N_digits | exact Hpad]).
  assert (Hval : digits_value 0 (show_N (a / 100) ++ pad) = a).
  { rewrite digits_value_app, show_N_value, digits_value_acc, Hlen.
    unfold pad. rewrite pad_zero_value, show_N_value.
    pose proof (N.div_mod a 100 ltac:(lia)). simpl. lia. }
  assert (Hf : List.filter is_digit ("$"%char :: show_N (a / 100) ++ "."%char :: pad)
               = show_N (a / 100) ++ pad).
  { cbn [List.filter]. change (is_digit "$"%char) with false. cbv iota.
    rewrite List.filter_app. cbn [List.filter]. change (is_digit "."%char) with false.
    cbv iota. rewrite (filter_digits_id _ (show_N_digits _)), (filter_digits_id _ Hpad).
    reflexivity. }
  rewrite Hf.
  unfold parse_u64, chars. rewrite list_ascii_of_string_of_list_ascii.
  destruct (show_N_cons (a / 100)) as [c [rest Hcr]].
  pose proof (show_N_digits (a / 100)) as Hd. rewrite Hcr in Hd.
  inversion Hd as [|? ? Hc _]; subst.
  rewrite Hcr. cbn [app]. cbv iota beta.
  replace (Ascii.eqb c "+"%char) with false
    by (destruct (Ascii.eqb_spec c "+"%char); [subst; discriminate | reflexivity]).
  change (c :: rest ++ pad) with ((c :: rest) ++ pad). rewrite <- Hcr.
  rewrite parse_u64_digits_value; [rewrite Hval; reflexivity | exact Hall |].
  rewrite Hval. exact Ha.
Qed.

(** A witness for [cents_to_dollars_roundtrip], at the amount of the
    crate's own test ([$2200.75]). *)
Lemma cents_to_dollars_roundtrip_witness :
  (220075 <= u64_max)%N /\ dollars_to_cents (cents_to_dollars 220075) = 220075%N.
Proof.
  split; [unfold u64_max; lia|].
  apply cents_to_dollars_roundtrip. unfold u64_max. lia.
Defined.

End MoneyFacts.

(* ------------------------------------------------------------------ *)
(** ** Record extraction: core attributes, bonds and charges *)

Module ExtractionFacts.
Import Text Inmate.

Lemma is_core_empty_false p :
  is_core_empty p = false ->
  first_name p <> "" /\ last_name p <> "" /\ dob p <> "" /\ booking_date_iso8601 p <> "".
Proof.
  unfold is_core_empty. intros H.
  repeat match type of H with
         | (_ || _)%bool = false => apply orb_false_iff in H as [H ?H]
         end.
  repeat split; intros E; rewrite E in *; discriminate.
Qed.

Lemma is_core_empty_set_img_blob p v : is_core_empty (set_img_blob p v) = is_core_empty p.
Proof. reflexivity. Qed.

(** The image step of [InmateProfile::build] leaves the core
    attributes as [set_core_profile_data] produced them. *)
Lemma profile_build_core fetch_img html sys_id :
  let parsed := set_core_profile_data (set_scil_sys_id default_profile (Some sys_id)) html in
  (is_core_empty parsed = true -> inmate_profile_build fetch_img html sys_id = Err ParseError) /\
  (forall p, inmate_profile_build fetch_img html sys_id = Ok p ->
             is_core_empty p = false).
Proof.
  intros parsed. unfold inmate_profile_build. fold parsed.
  destruct (img_src html) as [src|];
    [destruct (fetch_img _) as [[succ [blob|]]|]|]; cbv zeta;
    (split; [intros H; try rewrite is_core_empty_set_img_blob; rewrite H; reflexivity
            | intros p Hp; destruct (is_core_empty _) eqn:E; [discriminate|];
              injection Hp as <-; exact E]).
Qed.

Lemma profile_build_err fetch_img html sys_id e :
  inmate_profile_build fetch_img html sys_id = Err e -> e = ParseError.
Proof.
  unfold inmate_profile_build.
  destruct (img_src html) as [src|];
    [destruct (fetch_img _) as [[succ [blob|]]|]|]; cbv zeta;
    destruct (is_core_empty _); congruence.
Qed.

(** Claim C4: extraction fails with [ParseError] whenever one of the
    four core attributes is empty after parsing the profile tables, and
    every [Record] it does return has all four core attributes
    non-empty. *)
Theorem record_extraction_requires_core_attributes now fetch_img html sys_id :
  (is_core_empty (set_core_profile_data (set_scil_sys_id default_profile (Some sys_id)) html)
     = true ->
   record_build_from_html now fetch_img html sys_id = Err ParseError) /\
  (forall r, record_build_from_html now fetch_img html sys_id = Ok r ->
     first_name (profile r) <> "" /\ last_name (profile r) <> "" /\
     dob (profile r) <> "" /\ booking_date_iso8601 (profile r) <> "").
Proof.
  destruct (profile_build_core fetch_img html sys_id) as [Hempty Hok].
  unfold record_build_from_html. split.
  - intros H. rewrite (Hempty H). reflexivity.
  - intros r Hr.
    destruct (inmate_profile_build fetch_img html sys_id) as [p|e] eqn:Hp; [|discriminate].
    destruct (bond_information_build html) as [b|e]; [|discriminate].
    destruct (charge_information_build now html) as [c|e]; [|discriminate].
    injection Hr as <-. apply is_core_empty_false, Hok. reflexivity.
Qed.

(** A witness for [record_extraction_requires_core_attributes]: a page
    whose profile table has no last name. *)
Lemma record_extraction_requires_core_attributes_witness :
  let html := {| img_src := None;
                 profile_tables := [{| dts := [Some "First:"; Some "Date of Birth:";
                                               Some "Booking Date Time:"];
                                       dds := [Some "Jo"; Some "1990-01-01";
                                               Some "2024-01-01 10:00"] |}];
                 bond_rows := []; charge_rows := [["1"; "Theft"; "Felony"]] |} in
  is_core_empty (set_core_profile_data (set_scil_sys_id default_profile (Some "?id=1")) html)
    = true /\
  record_build_from_html "now" (fun _ => None) html "?id=1" = Err ParseError.
Proof.
  intros html. split; [reflexivity|].
  apply (proj1 (record_extraction_requires_core_attributes "now" (fun _ => None) html "?id=1")).
  reflexivity.
Defined.

Lemma charge_information_build_empty now html :
  charge_information_build now html = Err ParseError <-> charge_rows html = [].
Proof.
  unfold charge_information_build.
  destruct (charge_rows html); simpl; split; intros H; congruence.
Qed.

(** Claim C5: an empty charges table fails extraction with
    [ParseError]; the bond table never fails it, and when no bond row
    yields a [Bond] the record is built with an empty bond list. *)
Theorem charges_required_bonds_optional now fetch_img html sys_id :
  (charge_information_build now html = Err ParseError <-> charge_rows html = []) /\
  (charge_rows html = [] -> record_build_from_html now fetch_img html sys_id = Err ParseError) /\
  (exists bi, bond_information_build html = Ok bi) /\
  (forall p c,
     Forall (fun row => bond_of_row row = None) (bond_rows html) ->
     inmate_profile_build fetch_img html sys_id = Ok p ->
     charge_information_build now html = Ok c ->
     record_build_from_html now fetch_img html sys_id
       = Ok {| url := (inmates_root ++ sys_id)%string; profile := p;
               bond := {| bonds := [] |}; charges := c |}).
Proof.
  split; [apply charge_information_build_empty|]. split.
  - intros Hc. unfold record_build_from_html.
    destruct (inmate_profile_build fetch_img html sys_id) eqn:Hp;
      [|apply profile_build_err in Hp; subst; reflexivity].
    cbn [bond_information_build].
    apply (charge_information_build_empty now) in Hc. rewrite Hc. reflexivity.
  - split; [eexists; reflexivity|].
    intros p c Hnone Hp Hc. unfold record_build_from_html.
    rewrite Hp, Hc. unfold bond_information_build.
    replace (List.flat_map _ (bond_rows html)) with (@nil Bond); [reflexivity|].
    induction Hnone as [|row rows Hrow _ IH]; [reflexivity|].
    simpl. rewrite Hrow. exact IH.
Qed.

(** A witness for [charges_required_bonds_optional]: a complete profile
    whose bond row is too short to yield a [Bond]. *)
Lemma charges_required_bonds_optional_witness :
  let html := {| img_src := None;
                 profile_tables := [{| dts := [Some "First:"; Some "Last:"; Some "Date of Birth:";
                                               Some "Booking Date Time:"];
                                       dds := [Some "Jo"; Some "X"; Some "1990-01-01";
                                               Some "2024-01-01 10:00"] |}];
                 bond_rows := [["2024-01-01"]];
                 charge_rows := [["1"; "Theft"; "Felony"; "2024-01-01"]] |} in
  let html0 := {| img_src := None; profile_tables := profile_tables html;
                  bond_rows := []; charge_rows := [] |} in
  record_build_from_html "now" (fun _ => None) html0 "?id=1" = Err ParseError /\
  exists p c, record_build_from_html "now" (fun _ => None) html "?id=1"
                = Ok {| url := (inmates_root ++ "?id=1")%string; profile := p;
                        bond := {| bonds := [] |}; charges := c |}.
Proof.
  intros html html0. split.
  - apply (charges_required_bonds_optional "now" (fun _ => None) html0 "?id=1").
    reflexivity.
  - do 2 eexists.
    apply (charges_required_bonds_optional "now" (fun _ => None) html "?id=1").
    + repeat constructor.
    + reflexivity.
    + reflexivity.
Defined.

End ExtractionFacts.

(* ------------------------------------------------------------------ *)
(** ** Alias-list parsing *)

Module AliasFacts.
Import Text Inmate.

Lemma drop_ws_suffix l : exists pre, l = pre ++ drop_ws l.
Proof.
  induction l as [|c l IH]; simpl; [exists []; reflexivity|].
  destruct (is_whitespace c); [|exists []; reflexivity].
  destruct IH as [pre Hpre]. exists (c :: pre). simpl. f_equal. exact Hpre.
Qed.

Lemma drop_ws_head l :
  match drop_ws l with [] => True | c :: _ => is_whitespace c = false end.
Proof.
  induction l as [|c l IH]; simpl; [exact I|].
  destruct (is_whitespace c) eqn:E; [exact IH | exact E].
Qed.

Lemma drop_ws_id l :
  match l with [] => True | c :: _ => is_whitespace c = false end -> drop_ws l = l.
Proof. destruct l as [|c l]; simpl; [reflexivity|]. intros ->. reflexivity. Qed.

Lemma drop_ws_idem l : drop_ws (drop_ws l) = drop_ws l.
Proof. apply drop_ws_id, drop_ws_head. Qed.

Lemma trim_chars_idem l : trim_chars (trim_chars l) = trim_chars l.
Proof.
  unfold trim_chars. set (m := drop_ws l).
  assert (Hm : match m with [] => True | c :: _ => is_whitespace c = false end)
    by apply drop_ws_head.
  destruct (drop_ws_suffix (List.rev m)) as [pre Hpre].
  assert (Hsplit : m = List.rev (drop_ws (List.rev m)) ++ List.rev pre).
  { rewrite <- (rev_involutive m) at 1. rewrite Hpre at 1.
    rewrite rev_app_distr. reflexivity. }
  rewrite (drop_ws_id (List.rev (drop_ws (List.rev m)))).
  - rewrite rev_involutive, drop_ws_idem. reflexivity.
  - destruct (List.rev (drop_ws (List.rev m))) as [|c t] eqn:E; [exact I|].
    rewrite Hsplit in Hm. exact Hm.
Qed.

Lemma trim_chars_incl l x : In x (trim_chars l) -> In x l.
Proof.
  unfold trim_chars. intros H. apply in_rev in H.
  destruct (drop_ws_suffix (List.rev (drop_ws l))) as [pre Hpre].
  assert (H1 : In x (List.rev (drop_ws l))) by (rewrite Hpre; apply in_or_app; right; exact H).
  apply in_rev in H1.
  destruct (drop_ws_suffix l) as [pre' Hpre']. rewrite Hpre'. apply in_or_app. right. exact H1.
Qed.

Lemma split_on_no_sep sep l piece : In piece (split_on sep l) -> ~ In sep piece.
Proof.
  revert piece. induction l as [|c l IH]; intros piece Hin; simpl in Hin.
  - destruct Hin as [<-|[]]. intros [].
  - destruct (Ascii.eqb_spec c sep) as [->|Hne].
    + destruct Hin as [<-|Hin]; [intros []|]. exact (IH _ Hin).
    + destruct (split_on sep l) as [|p ps] eqn:E.
      * destruct Hin as [<-|[]]. intros [E'|[]]. congruence.
      * destruct Hin as [<-|Hin].
        -- intros [E'|Hp]; [congruence|]. apply (IH p); [left; reflexivity | exact Hp].
        -- apply IH. right. exact Hin.
Qed.

Lemma filter_nonempty_nil (l : list string) :
  List.filter (fun s => negb (String.eqb s "")) l = [] <-> Forall (fun s => s = "") l.
Proof.
  induction l as [|x l IH]; simpl; [split; constructor|].
  destruct (String.eqb_spec x "") as [->|Hx]; simpl.
  - rewrite IH. split; [constructor; auto | inversion 1; auto].
  - split; [discriminate | inversion 1; contradiction].
Qed.

Lemma split_on_incl sep l piece x : In piece (split_on sep l) -> In x piece -> In x l.
Proof.
  revert piece. induction l as [|c l IH]; intros piece Hin Hx; simpl in Hin.
  - destruct Hin as [<-|[]]. destruct Hx.
  - destruct (Ascii.eqb c sep).
    + destruct Hin as [<-|Hin]; [destruct Hx|]. right. exact (IH _ Hin Hx).
    + destruct (split_on sep l) as [|p ps] eqn:E.
      * destruct Hin as [<-|[]]. destruct Hx as [<-|[]]. left. reflexivity.
      * destruct Hin as [<-|Hin].
        -- destruct Hx as [<-|Hx]; [left; reflexivity|].
           right. apply (IH p); [left; reflexivity | exact Hx].
        -- right. apply (IH piece); [right; exact Hin | exact Hx].
Qed.

Lemma trim_chars_all_ws l : Forall (fun c => is_whitespace c = true) l -> trim_chars l = [].
Proof.
  intros H. unfold trim_chars.
  replace (drop_ws l) with (@nil ascii); [reflexivity|].
  induction H as [|c l Hc _ IH]; simpl; [reflexivity|]. rewrite Hc. exact IH.
Qed.

(** Counterexample to claim C7: [get_aliases] keeps repeated names;
    the list it returns is not duplicate-free. *)
Lemma get_aliases_keeps_duplicates :
  get_aliases "John Doe, John Doe" = Some ["John Doe"; "John Doe"]%string /\
  ~ (forall s v, get_aliases s = Some v -> NoDup v).
Proof.
  split; [reflexivity|]. intros H.
  specialize (H "John Doe, John Doe"%string _ eq_refl).
  inversion H as [|x l Hx _]. apply Hx. now left.
Qed.

(** Claim C7 (amended): [get_aliases] splits on commas, trims each
    piece and drops the empty ones; it returns [None] exactly when no
    piece survives (never [Some []]), and otherwise the survivors in
    input order, each non-empty, trimmed and comma-free; repeated names
    are kept. An input made only of commas and whitespace yields
    [None], and the crate's test input yields the three names. *)
Theorem get_aliases_trimmed_nonempty_in_order (s : string) :
  let pieces := split_on ","%char (chars s) in
  (get_aliases s = None <-> Forall (fun p => trim (of_chars p) = "") pieces) /\
  get_aliases s <> Some [] /\
  (forall v, get_aliases s = Some v ->
     v = List.filter (fun a => negb (String.eqb a ""))
           (List.map (fun p => trim (of_chars p)) pieces) /\
     Forall (fun a => a <> "" /\ trim a = a /\ ~ In ","%char (chars a)) v) /\
  (Forall (fun c => c = ","%char \/ is_whitespace c = true) (chars s) -> get_aliases s = None) /\
  get_aliases "John Doe, , , Jane Doe,    Marty McFly,  "
    = Some ["John Doe"; "Jane Doe"; "Marty McFly"]%string.
Proof.
  intros pieces.
  assert (Hnone : get_aliases s = None <-> Forall (fun p => trim (of_chars p) = "") pieces).
  { unfold get_aliases. fold pieces. rewrite <- Forall_map with (P := fun a => a = ""%string).
    rewrite <- filter_nonempty_nil.
    destruct (List.filter _ _); split; congruence. }
  split; [exact Hnone|]. split.
  { unfold get_aliases. destruct (List.filter _ _); congruence. }
  split; [|split].
  - intros v Hv. unfold get_aliases in Hv. fold pieces in Hv.
    destruct (List.filter _ _) as [|a l] eqn:E; [discriminate|].
    injection Hv as <-. split; [reflexivity|].
    apply Forall_forall. intros a' Ha'. apply list_elem_of_In in Ha'.
    rewrite <- E in Ha'. apply filter_In in Ha' as [Hin Hne].
    apply in_map_iff in Hin as [piece [<- Hpiece]].
    unfold trim, of_chars, chars in *. rewrite !list_ascii_of_string_of_list_ascii in *.
    repeat split.
    + intros E'. rewrite E' in Hne. discriminate.
    + rewrite trim_chars_idem. reflexivity.
    + intros Hc. apply trim_chars_incl in Hc.
      apply (split_on_no_sep _ _ _ Hpiece). exact Hc.
  - intros Hall. apply Hnone. apply Forall_forall. intros piece Hpiece.
    apply list_elem_of_In in Hpiece.
    unfold trim, of_chars, chars. rewrite list_ascii_of_string_of_list_ascii.
    rewrite trim_chars_all_ws; [reflexivity|].
    apply Forall_forall. intros c Hc. apply list_elem_of_In in Hc.
    pose proof (split_on_incl _ _ _ _ Hpiece Hc) as Hcs.
    apply list_elem_of_In in Hcs.
    destruct (proj1 (Forall_forall _ _) Hall c Hcs) as [->|Hws]; [|exact Hws].
    exfalso. exact (split_on_no_sep _ _ _ Hpiece Hc).
  - reflexivity.
Qed.

End AliasFacts.

(* ------------------------------------------------------------------ *)
(** ** Serialization: transactions, rollback, image keys, bond amounts *)

Module SerializeFacts.
Import Store Serialize.

Definition live (d : Db) : Txn := {| txn_db := d; aborted := false |}.

(** The invariants the sequences and constraints maintain between
    batches. *)
Definition wf (d : Db) : Prop :=
  Forall (fun r => (id r < inmate_id_seq d)%Z) (inmate_rows d) /\
  Forall (fun ia => (fst ia < inmate_id_seq d)%Z) (inmate_alias_rows d) /\
  NoDup (alias_ids d) /\
  Forall (fun a => (alias_row_id a < alias_id_seq d)%Z) (alias_rows d) /\
  NoDup (List.map inmate_key (inmate_rows d)).

Lemma exec_live {A} (stmt : Db -> result A * Db) d a d' :
  stmt d = (Ok a, d') -> exec stmt (live d) = (Ok a, live d').
Proof. intros H. unfold exec, live; simpl. rewrite H. reflexivity. Qed.

Lemma exec_err {A} (stmt : Db -> result A * Db) d e d' :
  stmt d = (Err e, d') -> exec stmt (live d) = (Err e, {| txn_db := d'; aborted := true |}).
Proof. intros H. unfold exec, live; simpl. rewrite H. reflexivity. Qed.

Lemma bind_ok {A B} (m : M A) (k : A -> M B) t a t' :
  m t = (Ok a, t') -> bind m k t = k a t'.
Proof. intros H. unfold bind. rewrite H. reflexivity. Qed.

Lemma bind_err {A B} (m : M A) (k : A -> M B) t e t' :
  m t = (Err e, t') -> bind m k t = (Err e, t').
Proof. intros H. unfold bind. rewrite H. reflexivity. Qed.

Lemma existsb_Z_In (x : Z) l : List.existsb (Z.eqb x) l = true <-> In x l.
Proof.
  rewrite existsb_exists. split.
  - intros [y [Hy Hxy]]. apply Z.eqb_eq in Hxy. subst. exact Hy.
  - intros Hx. exists x. split; [exact Hx | apply Z.eqb_refl].
Qed.

Lemma existsb_string_In (x : string) l : List.existsb (String.eqb x) l = true <-> In x l.
Proof.
  rewrite existsb_exists. split.
  - intros [y [Hy Hxy]]. apply String.eqb_eq in Hxy. subst. exact Hy.
  - intros Hx. exists x. split; [exact Hx | apply String.eqb_refl].
Qed.

Lemma NoDup_map_inj {A B} (f : A -> B) (l : list A) a b :
  NoDup (List.map f l) -> In a l -> In b l -> f a = f b -> a = b.
Proof.
  induction l as [|x l IH]; simpl; [tauto|].
  intros Hnd Ha Hb Hab. apply NoDup_cons in Hnd as [Hx Hnd].
  destruct Ha as [<-|Ha], Hb as [<-|Hb]; auto.
  - exfalso. apply Hx. apply list_elem_of_In. rewrite Hab. apply in_map. exact Hb.
  - exfalso. apply Hx. apply list_elem_of_In. rewrite <- Hab. apply in_map. exact Ha.
Qed.

(** [Itertools::unique] yields each value once. *)
Lemma unique_from_spec seen l x :
  In x (unique_from seen l) -> In x l /\ ~ In x seen.
Proof.
  revert seen. induction l as [|y l IH]; intros seen; simpl; [tauto|].
  destruct (List.existsb (String.eqb y) seen) eqn:Hy.
  - intros Hx. apply IH in Hx. tauto.
  - intros [<-|Hx].
    + split; [left; reflexivity|]. intros Hin.
      apply existsb_string_In in Hin. congruence.
    + apply IH in Hx as [Hl Hs]. simpl in Hs. tauto.
Qed.

Lemma unique_from_NoDup seen l : NoDup (unique_from seen l).
Proof.
  revert seen. induction l as [|y l IH]; intros seen; simpl; [constructor|].
  destruct (List.existsb (String.eqb y) seen); [apply IH|].
  constructor; [|apply IH].
  intros Hin. apply list_elem_of_In in Hin. apply unique_from_spec in Hin as [_ Hs]. apply Hs. left. reflexivity.
Qed.

(** Statements that leave [inmate] untouched. *)
Lemma insert_bond_live iid ty a d :
  In iid (inmate_ids d) ->
  insert_bond iid ty a d =
  (Ok tt, set_bond_rows d (bond_rows d ++ [{| bond_row_id := bond_id_seq d;
                                              bond_inmate_id := iid; bond_type_col := ty;
                                              amount_pennies := a |}]) (bond_id_seq d + 1)).
Proof.
  intros H. unfold insert_bond. apply existsb_Z_In in H. rewrite H. reflexivity.
Qed.

Lemma serialize_bonds_live iid l d :
  In iid (inmate_ids d) ->
  exists d', serialize_bonds iid l (live d) = (Ok tt, live d') /\ inmate_rows d' = inmate_rows d.
Proof.
  revert d. induction l as [|b l IH]; intros d Hiid; simpl.
  - exists d. split; reflexivity.
  - unfold serialize_bond.
    erewrite bind_ok by (apply exec_live, insert_bond_live, Hiid).
    match goal with
    | |- exists _, serialize_bonds _ _ (live ?d2) = _ /\ _ =>
        destruct (IH d2 Hiid) as [d' [Hrun Hrows]]
    end.
    exists d'. split; [exact Hrun | exact Hrows].
Qed.

Lemma serialize_charges_live iid l d :
  In iid (inmate_ids d) ->
  exists d', serialize_charges iid l (live d) = (Ok tt, live d') /\ inmate_rows d' = inmate_rows d.
Proof.
  revert d. induction l as [|c l IH]; intros d Hiid; simpl.
  - exists d. split; reflexivity.
  - unfold serialize_charge.
    assert (Hins : exists d2, insert_charge iid c d = (Ok tt, d2) /\ inmate_rows d2 = inmate_rows d).
    { unfold insert_charge. apply existsb_Z_In in Hiid. rewrite Hiid. simpl.
      eexists. split; reflexivity. }
    destruct Hins as [d2 [Hins Hrows2]].
    erewrite bind_ok by (apply exec_live, Hins).
    assert (Hiid2 : In iid (inmate_ids d2)) by (unfold inmate_ids; rewrite Hrows2; exact Hiid).
    destruct (IH _ Hiid2) as [d' [Hrun Hrows]].
    exists d'. split; [exact Hrun | congruence].
Qed.

Lemma insert_inmate_alias_ok iid aid d :
  In iid (inmate_ids d) -> In aid (alias_ids d) -> ~ In (iid, aid) (inmate_alias_rows d) ->
  insert_inmate_alias iid aid d =
  (Ok tt, set_inmate_alias_rows d (inmate_alias_rows d ++ [(iid, aid)])).
Proof.
  intros Hi Ha Hn. unfold insert_inmate_alias.
  apply existsb_Z_In in Hi, Ha. rewrite Hi, Ha. simpl.
  clear Hi Ha. destruct (List.existsb _ _) eqn:Hpk; [|reflexivity].
  exfalso. apply existsb_exists in Hpk as [[i a] [Hin Heq]].
  apply andb_true_iff in Heq as [H1 H2]. simpl in H1, H2.
  apply Z.eqb_eq in H1, H2. subst. exact (Hn Hin).
Qed.

(** The alias loop's invariant: [done] holds the names already joined
    to [iid]; every join row of [iid] points at one of them. *)
Definition alias_inv (iid : Z) (done : list string) (d : Db) : Prop :=
  In iid (inmate_ids d) /\
  NoDup (alias_ids d) /\
  Forall (fun a => (alias_row_id a < alias_id_seq d)%Z) (alias_rows d) /\
  (forall a, In (iid, a) (inmate_alias_rows d) ->
     exists r, In r (alias_rows d) /\ alias_row_id r = a /\ In (alias_text r) done).

Lemma alias_inv_weaken iid x done d : alias_inv iid done d -> alias_inv iid (x :: done) d.
Proof.
  intros (H1 & H2 & H3 & H4). repeat split; auto.
  intros a Ha. destruct (H4 a Ha) as (r & Hr & Hid & Ht).
  exists r. repeat split; auto. right. exact Ht.
Qed.

Lemma serialize_aliases_live iid l :
  forall done d,
  alias_inv iid done d -> NoDup l -> (forall x, In x l -> ~ In x done) ->
  exists d', serialize_aliases iid l (live d) = (Ok tt, live d') /\ inmate_rows d' = inmate_rows d.
Proof.
  induction l as [|x l IH]; intros done d Hinv Hnd Hdis; simpl.
  { exists d. split; reflexivity. }
  apply NoDup_cons in Hnd as [Hxl Hnd].
  assert (Hdis' : forall y, In y l -> ~ In y (x :: done)).
  { intros y Hy [<-|Hd].
    - apply Hxl. apply list_elem_of_In. exact Hy.
    - exact (Hdis y (or_intror Hy) Hd). }
  destruct (String.eqb x "") eqn:Hx.
  { apply (IH (x :: done) d); [apply alias_inv_weaken, Hinv | exact Hnd | exact Hdis']. }
  destruct Hinv as (Hiid & Hndid & Hlt & Hjoin).
  assert (Hxdone : ~ In x done) by (apply Hdis; left; reflexivity).
  unfold serialize_alias.
  destruct (List.find (fun r => String.eqb (alias_text r) x) (alias_rows d)) as [r0|] eqn:Hf.
  - (* the alias exists: ON CONFLICT returns its id *)
    assert (Hup : upsert_alias x d =
                  (Ok (alias_row_id r0), set_alias_rows d (alias_rows d) (alias_id_seq d + 1))).
    { unfold upsert_alias. rewrite Hx, Hf. reflexivity. }
    rewrite (exec_live _ _ _ _ Hup).
    apply List.find_some in Hf as [Hr0 Htext]. apply String.eqb_eq in Htext.
    set (d2 := set_alias_rows d (alias_rows d) (alias_id_seq d + 1)).
    assert (Hpk : ~ In (iid, alias_row_id r0) (inmate_alias_rows d2)).
    { intros Hin. destruct (Hjoin _ Hin) as (r & Hr & Hid & Ht).
      assert (r = r0) by (apply (NoDup_map_inj alias_row_id (alias_rows d)); auto).
      subst r. rewrite Htext in Ht. exact (Hxdone Ht). }
    erewrite bind_ok.
    2:{ apply exec_live, insert_inmate_alias_ok; [exact Hiid | | exact Hpk].
        apply in_map. exact Hr0. }
    match goal with
    | |- context [serialize_aliases _ _ (live ?d3)] =>
        assert (Hinv3 : alias_inv iid (x :: done) d3);
        [| destruct (IH (x :: done) d3 Hinv3 Hnd Hdis') as [d' [Hrun Hrows]];
           exists d'; split; [exact Hrun | exact Hrows]]
    end.
    repeat split.
    + exact Hiid.
    + exact Hndid.
    + simpl. eapply Forall_impl; [exact Hlt|]. simpl. intros a Ha. lia.
    + simpl. intros a Ha. apply in_app_or in Ha as [Ha|[Ha|[]]].
      * destruct (Hjoin a Ha) as (r & Hr & Hid & Ht).
        exists r. split; [exact Hr | split; [exact Hid | right; exact Ht]].
      * injection Ha as <-.
        exists r0. split; [exact Hr0 | split; [reflexivity | left; symmetry; exact Htext]].
  - (* a new alias row with the next id *)
    set (r0 := {| alias_row_id := alias_id_seq d; alias_text := x |}).
    assert (Hup : upsert_alias x d =
                  (Ok (alias_id_seq d),
                   set_alias_rows d (alias_rows d ++ [r0]) (alias_id_seq d + 1))).
    { unfold upsert_alias. rewrite Hx, Hf. reflexivity. }
    rewrite (exec_live _ _ _ _ Hup).
    set (d2 := set_alias_rows d (alias_rows d ++ [r0]) (alias_id_seq d + 1)).
    assert (Hfresh : ~ In (alias_id_seq d) (alias_ids d)).
    { unfold alias_ids. intros Hin. apply in_map_iff in Hin as (r & Hid & Hr).
      rewrite Forall_forall in Hlt. specialize (Hlt r (proj2 (list_elem_of_In _ _) Hr)). lia. }
    assert (Hpk : ~ In (iid, alias_id_seq d) (inmate_alias_rows d2)).
    { intros Hin. destruct (Hjoin _ Hin) as (r & Hr & Hid & _).
      apply Hfresh. rewrite <- Hid. apply in_map. exact Hr. }
    erewrite bind_ok.
    2:{ apply exec_live, insert_inmate_alias_ok; [exact Hiid | | exact Hpk].
        unfold alias_ids. simpl. rewrite map_app. apply in_or_app. right. left. reflexivity. }
    match goal with
    | |- context [serialize_aliases _ _ (live ?d3)] =>
        assert (Hinv3 : alias_inv iid (x :: done) d3);
        [| destruct (IH (x :: done) d3 Hinv3 Hnd Hdis') as [d' [Hrun Hrows]];
           exists d'; split; [exact Hrun | exact Hrows]]
    end.
    repeat split.
    + exact Hiid.
    + unfold alias_ids. simpl. rewrite map_app. simpl.
      apply NoDup_app. split; [exact Hndid|]. split; [|apply NoDup_singleton].
      intros y Hy Hy'. apply list_elem_of_singleton in Hy'. subst y.
      apply Hfresh. apply list_elem_of_In. exact Hy.
    + simpl. apply Forall_app. split.
      * eapply Forall_impl; [exact Hlt|]. simpl. intros a Ha. lia.
      * apply Forall_singleton. simpl. lia.
    + simpl. intros a Ha. apply in_app_or in Ha as [Ha|[Ha|[]]].
      * destruct (Hjoin a Ha) as (r & Hr & Hid & Ht).
        exists r. split; [apply in_or_app; left; exact Hr | split; [exact Hid | right; exact Ht]].
      * injection Ha as <-.
        exists r0. split; [apply in_or_app; right; left; reflexivity | split; [reflexivity | left; reflexivity]].
Qed.

Lemma insert_inmate_ok env p key d iid d1 :
  insert_inmate env p key d = (Ok iid, d1) ->
  iid = inmate_id_seq d /\
  exists row, d1 = set_inmate_rows d (inmate_rows d ++ [row]) (iid + 1) /\
              id row = iid /\ img_url row = Some key.
Proof.
  unfold insert_inmate. intros H.
  repeat (case_match; simpl in H; try discriminate).
  all: injection H as <- <-; split; [reflexivity|].
  all: eexists; split; [reflexivity | split; reflexivity].
Qed.

Lemma update_fresh_row (rows : list InmateRow) row iid u :
  Forall (fun r => (id r < iid)%Z) rows -> id row = iid ->
  List.map (fun r => if Z.eqb (id r) iid then with_img_url r (Some u) else r) (rows ++ [row])
  = rows ++ [with_img_url row (Some u)].
Proof.
  intros Hlt Hid. rewrite map_app. simpl. rewrite Hid, Z.eqb_refl. f_equal.
  induction rows as [|r rows IH]; [reflexivity|].
  apply Forall_cons in Hlt as [Hr Hlt]. simpl. rewrite IH by exact Hlt.
  destruct (Z.eqb_spec (id r) iid); [lia | reflexivity].
Qed.

(** The [img_url] the serializer leaves on the inserted row. *)
Definition stored_img_url (env : Env) (p : Inmate.InmateProfile)
  (aws_s3_client : option S3Client) : string :=
  let key := Inmate.get_hash_on_core_attributes (sha256 env) p in
  if has_s3_upload_criteria p aws_s3_client then
    match aws_s3_client, Inmate.img_blob p with
    | Some client, Some blob =>
        if upload_img_to_env_bucket_s3 env client blob key then key else ""%string
    | _, _ => key
    end
  else ""%string.

Lemma profile_tail_live iid l img d2 :
  alias_inv iid [] d2 ->
  exists d',
    (let* _ := serialize_aliases iid (unique l) in
     let* _ := exec (insert_img iid img) in
     ret iid) (live d2) = (Ok iid, live d') /\ inmate_rows d' = inmate_rows d2.
Proof.
  intros Hinv.
  destruct (serialize_aliases_live iid (unique l) [] d2 Hinv (unique_from_NoDup [] l))
    as [d3 [Hrun Hrows]]; [intros x _ []|].
  erewrite bind_ok by exact Hrun. cbv beta.
  destruct Hinv as [Hiid _].
  assert (Hiid3 : In iid (inmate_ids d3)) by (unfold inmate_ids; rewrite Hrows; exact Hiid).
  erewrite bind_ok.
  2:{ apply exec_live. unfold insert_img. apply existsb_Z_In in Hiid3. rewrite Hiid3. reflexivity. }
  eexists. split; [reflexivity|]. simpl. exact Hrows.
Qed.

(** Once the [inmate] insert succeeds on a well-formed store, the
    rest of the transaction succeeds and commits. *)
Lemma serialize_record_inserted env r aws_s3_client d iid d1 :
  wf d ->
  insert_inmate env (Inmate.profile r)
    (if has_s3_upload_criteria (Inmate.profile r) aws_s3_client
     then Inmate.get_hash_on_core_attributes (sha256 env) (Inmate.profile r) else ""%string)
    d = (Ok iid, d1) ->
  exists d' row,
    serialize_record env r aws_s3_client d = (Ok iid, d') /\
    inmate_rows d' = inmate_rows d ++ [row] /\ id row = iid /\
    img_url row = Some (stored_img_url env (Inmate.profile r) aws_s3_client).
Proof.
  intros (Hids & Hia & Hnd & Hlt & _) Hins.
  pose proof (insert_inmate_ok _ _ _ _ _ _ Hins) as [Hseq [row0 [Hd1 [Hid0 Hurl0]]]].
  set (p := Inmate.profile r) in *.
  (* the profile: insert, image bookkeeping, aliases, image row *)
  assert (Hprof : exists d4 row,
            serialize_profile env p aws_s3_client (live d) = (Ok iid, live d4) /\
            inmate_rows d4 = inmate_rows d ++ [row] /\ id row = iid /\
            img_url row = Some (stored_img_url env p aws_s3_client)).
  { assert (Hstart : forall row d2,
              inmate_rows d2 = inmate_rows d ++ [row] -> id row = iid ->
              inmate_alias_rows d2 = inmate_alias_rows d -> alias_rows d2 = alias_rows d ->
              alias_id_seq d2 = alias_id_seq d -> alias_inv iid [] d2).
    { intros row d2 Hr2 Hid2 Hia2 Har2 Has2. repeat split.
      - unfold inmate_ids. rewrite Hr2, map_app. apply in_or_app. right. left. exact Hid2.
      - unfold alias_ids. rewrite Har2. exact Hnd.
      - rewrite Har2, Has2. exact Hlt.
      - intros a Ha. exfalso. rewrite Hia2 in Ha.
        rewrite Forall_forall in Hia. specialize (Hia _ (proj2 (list_elem_of_In _ _) Ha)).
        simpl in Hia. lia. }
    unfold serialize_profile. cbv zeta.
    erewrite bind_ok by (apply exec_live, Hins). cbv beta.
    unfold stored_img_url.
    destruct (has_s3_upload_criteria p aws_s3_client) eqn:Hc.
    - destruct aws_s3_client as [c|], (Inmate.img_blob p) as [blob|] eqn:Hb;
        try (unfold has_s3_upload_criteria in Hc; rewrite Hb, ?andb_false_r in Hc; discriminate).
      destruct (upload_img_to_env_bucket_s3 env c blob
                  (Inmate.get_hash_on_core_attributes (sha256 env) p)) eqn:Hu.
      + erewrite bind_ok by reflexivity. cbv beta.
        destruct (profile_tail_live iid (match Inmate.aliases p with Some v => v | None => [] end)
                    (Some blob) d1) as [d4 [Hrun Hrows]].
        { apply (Hstart row0); subst d1; try reflexivity. exact Hid0. }
        exists d4, row0. split; [exact Hrun|]. split; [rewrite Hrows; subst d1; reflexivity|].
        split; [exact Hid0 | exact Hurl0].
      + erewrite bind_ok by (apply exec_live; reflexivity). cbv beta.
        set (d2 := set_inmate_rows d1 _ (inmate_id_seq d1)).
        assert (Hr2 : inmate_rows d2 = inmate_rows d ++ [with_img_url row0 (Some "")]).
        { subst d2 d1. simpl. apply update_fresh_row; [rewrite Hseq; exact Hids | exact Hid0]. }
        destruct (profile_tail_live iid (match Inmate.aliases p with Some v => v | None => [] end)
                    (Some blob) d2) as [d4 [Hrun Hrows]].
        { apply (Hstart (with_img_url row0 (Some ""))); [exact Hr2 | exact Hid0 | ..];
            subst d2 d1; reflexivity. }
        exists d4, (with_img_url row0 (Some "")). split; [exact Hrun|].
        split; [rewrite Hrows; exact Hr2|]. split; [exact Hid0 | reflexivity].
    - erewrite bind_ok by reflexivity. cbv beta.
      destruct (profile_tail_live iid (match Inmate.aliases p with Some v => v | None => [] end)
                  (Inmate.img_blob p) d1) as [d4 [Hrun Hrows]].
      { apply (Hstart row0); subst d1; try reflexivity. exact Hid0. }
      exists d4, row0. split; [exact Hrun|]. split; [rewrite Hrows; subst d1; reflexivity|].
      split; [exact Hid0 | exact Hurl0]. }
  destruct Hprof as [d4 [row [Hprof [Hrows4 [Hid Hurl]]]]].
  assert (Hiid4 : In iid (inmate_ids d4)).
  { unfold inmate_ids. rewrite Hrows4, map_app. apply in_or_app. right. left. exact Hid. }
  destruct (serialize_bonds_live iid (Inmate.bonds (Inmate.bond r)) d4 Hiid4) as [d5 [Hb Hr5]].
  assert (Hiid5 : In iid (inmate_ids d5)) by (unfold inmate_ids; rewrite Hr5; exact Hiid4).
  destruct (serialize_charges_live iid (Inmate.charge_list (Inmate.charges r)) d5 Hiid5)
    as [d6 [Hch Hr6]].
  unfold serialize_record. cbv zeta.
  change {| txn_db := d; aborted := false |} with (live d).
  erewrite bind_ok by exact Hprof. cbv beta.
  erewrite bind_ok by exact Hb. cbv beta.
  erewrite bind_ok by exact Hch. cbv beta.
  unfold ret. simpl.
  exists d6, row. split; [reflexivity|]. split; [congruence|]. split; [exact Hid | exact Hurl].
Qed.

Lemma serialize_record_insert_err env r aws_s3_client d e d1 :
  insert_inmate env (Inmate.profile r)
    (if has_s3_upload_criteria (Inmate.profile r) aws_s3_client
     then Inmate.get_hash_on_core_attributes (sha256 env) (Inmate.profile r) else ""%string)
    d = (Err e, d1) ->
  serialize_record env r aws_s3_client d = (Err e, rollback d d1).
Proof.
  intros Hins. unfold serialize_record. cbv zeta.
  change {| txn_db := d; aborted := false |} with (live d).
  assert (Hprof : serialize_profile env (Inmate.profile r) aws_s3_client (live d) =
                  (Err e, {| txn_db := d1; aborted := true |})).
  { unfold serialize_profile. cbv zeta. eapply bind_err. apply exec_err, Hins. }
  erewrite bind_err by exact Hprof. reflexivity.
Qed.

Lemma insert_inmate_dup env p key d row :
  In row (inmate_rows d) ->
  first_name row = Inmate.first_name p -> last_name row = Inmate.last_name p ->
  cast_date env (Inmate.dob p) = Some (dob row) ->
  cast_timestamp env (Inmate.booking_date_iso8601 p) = Some (booking_date row) ->
  exists e, insert_inmate env p key d =
            (Err e, set_inmate_rows d (inmate_rows d) (inmate_id_seq d + 1)).
Proof.
  intros Hin Hf Hl Hd Hb. unfold insert_inmate. rewrite Hd, Hb. cbv zeta.
  destruct (_ || _); [eexists; reflexivity|].
  destruct (match Inmate.embedding p with Some _ => _ | None => _ end); [eexists; reflexivity|].
  match goal with
  | |- context [if List.existsb ?f ?l then _ else _] =>
      assert (Hex : List.existsb f l = true)
  end.
  { apply existsb_exists. exists row. split; [exact Hin|].
    apply bool_decide_eq_true_2. unfold inmate_key. simpl. rewrite Hf, Hl. reflexivity. }
  rewrite Hex. eexists; reflexivity.
Qed.

Lemma filter_none {A} (f : A -> bool) l :
  (forall x, In x l -> f x = false) -> List.filter f l = [].
Proof.
  induction l as [|x l IH]; intros H; simpl; [reflexivity|].
  rewrite (H x (or_introl eq_refl)). apply IH. intros y Hy. apply H. right. exact Hy.
Qed.

Lemma count_key_unique (rows : list InmateRow) row :
  NoDup (List.map inmate_key rows) -> In row rows ->
  length (List.filter (fun x => bool_decide (inmate_key x = inmate_key row)) rows) = 1%nat.
Proof.
  induction rows as [|x rows IH]; simpl; [tauto|].
  intros Hnd Hin. apply NoDup_cons in Hnd as [Hx Hnd].
  destruct Hin as [<-|Hin].
  - rewrite bool_decide_eq_true_2 by reflexivity. simpl. f_equal.
    rewrite filter_none; [reflexivity|]. intros y Hy.
    apply bool_decide_eq_false_2. intros Hk. apply Hx.
    apply list_elem_of_In. rewrite <- Hk. apply in_map. exact Hy.
  - rewrite bool_decide_eq_false_2; [apply IH; assumption|].
    intros Hk. apply Hx. apply list_elem_of_In. rewrite Hk. apply in_map. exact Hin.
Qed.

(** Concrete inputs: an environment whose uploads fail, a profile with
    an image, and the store after that profile was committed. *)
Definition fixture_env : Env := {|
  sha256 := fun b => b;
  cast_date := fun _ => Some 7306%Z;
  cast_timestamp := fun _ => Some 1704164645%Z;
  upload_img_to_env_bucket_s3 := fun _ _ _ => false;
  openai_embedding := fun _ _ => None |}.

Definition fixture_client : S3Client := {| s3_region := "us-east-2" |}.

Definition fixture_profile : Inmate.InmateProfile :=
  Inmate.set_img_blob
    (Inmate.set_booking_date_iso8601
       (Inmate.set_dob
          (Inmate.set_last_name (Inmate.set_first_name Inmate.default_profile "John") "Doe")
          "01/02/1990")
       "2024-01-02T03:04:05")
    (Some [Byte.x01]).

Definition fixture_record : Inmate.Record_ := {|
  Inmate.url := "https://www.scottcountyiowa.us/sheriff/inmates.php?comdate=today&sysid=1";
  Inmate.profile := fixture_profile;
  Inmate.bond := {| Inmate.bonds := [] |};
  Inmate.charges := {| Inmate.charge_list := [] |} |}.

Definition empty_db : Db := mk_db [] [] [] [] [] [] 1 1 1 1 1.

Definition committed_row : InmateRow := {|
  id := 1; first_name := "John"; middle_name := None; last_name := "Doe"; affix := None;
  permanent_id := None; sex := None; dob := 7306; arresting_agency := None;
  booking_date := 1704164645; booking_number := None; height := None; weight := None;
  race := None; eye_color := None; img_url := Some ""; scil_sysid := None; embedding := None |}.

Definition committed_db : Db := mk_db [committed_row] [] [] [] [] [] 2 1 1 1 1.

Definition fixture_bond : Inmate.Bond :=
  {| Inmate.bond_type := "Cash"; Inmate.bond_amount := 2147483648%N |}.

Lemma committed_db_wf : wf committed_db.
Proof. unfold wf. apply (bool_decide_unpack _). vm_compute. reflexivity. Qed.

Lemma empty_db_wf : wf empty_db.
Proof. unfold wf. apply (bool_decide_unpack _). vm_compute. reflexivity. Qed.

(** ** C1 *)

(** C1: when an inmate row with the profile's first name, last name,
    date of birth and booking timestamp is already committed,
    [serialize_record] fails, the store keeps every table as it was
    (no inmate, alias, join, bond, charge or img row of the record
    survives; only sequence values are consumed), and exactly one
    inmate row with that composite key exists afterwards. *)
Theorem duplicate_core_key_rolls_back env r aws_s3_client d row :
  wf d -> In row (inmate_rows d) ->
  first_name row = Inmate.first_name (Inmate.profile r) ->
  last_name row = Inmate.last_name (Inmate.profile r) ->
  cast_date env (Inmate.dob (Inmate.profile r)) = Some (dob row) ->
  cast_timestamp env (Inmate.booking_date_iso8601 (Inmate.profile r)) = Some (booking_date row) ->
  exists e d',
    serialize_record env r aws_s3_client d = (Err e, d') /\
    inmate_rows d' = inmate_rows d /\ alias_rows d' = alias_rows d /\
    inmate_alias_rows d' = inmate_alias_rows d /\ bond_rows d' = bond_rows d /\
    charge_rows d' = charge_rows d /\ img_rows d' = img_rows d /\
    length (List.filter (fun x => bool_decide (inmate_key x = inmate_key row))
                        (inmate_rows d')) = 1%nat.
Proof.
  intros (_ & _ & _ & _ & Hkeys) Hin Hf Hl Hd Hb.
  destruct (insert_inmate_dup env (Inmate.profile r)
              (if has_s3_upload_criteria (Inmate.profile r) aws_s3_client
               then Inmate.get_hash_on_core_attributes (sha256 env) (Inmate.profile r)
               else ""%string) d row Hin Hf Hl Hd Hb) as [e Hins].
  exists e. eexists. split; [apply serialize_record_insert_err, Hins|].
  simpl. repeat split; try reflexivity.
  apply count_key_unique; assumption.
Qed.

Lemma duplicate_core_key_rolls_back_witness :
  exists e d',
    serialize_record fixture_env fixture_record None committed_db = (Err e, d') /\
    inmate_rows d' = inmate_rows committed_db /\ alias_rows d' = alias_rows committed_db /\
    inmate_alias_rows d' = inmate_alias_rows committed_db /\
    bond_rows d' = bond_rows committed_db /\
    charge_rows d' = charge_rows committed_db /\ img_rows d' = img_rows committed_db /\
    length (List.filter (fun x => bool_decide (inmate_key x = inmate_key committed_row))
                        (inmate_rows d')) = 1%nat.
Proof.
  apply (duplicate_core_key_rolls_back fixture_env fixture_record None committed_db committed_row).
  - exact committed_db_wf.
  - simpl. left. reflexivity.
  - reflexivity.
  - reflexivity.
  - reflexivity.
  - reflexivity.
Defined.


(** ** C2 *)

(** C2: when the image is eligible for upload (non-empty bytes and an
    S3 client), the [inmate] insert succeeds and the upload fails, the
    transaction still commits: [serialize_record] returns the new id,
    the committed row is the inserted one with [img_url = ""], and the
    batch counts the record as inserted, not failed. *)
Theorem upload_failure_still_inserted env oai_client client r r' d iid d1 blob :
  wf d ->
  embedding_step env oai_client r = r' ->
  Inmate.img_blob (Inmate.profile r') = Some blob -> blob <> [] ->
  insert_inmate env (Inmate.profile r')
    (Inmate.get_hash_on_core_attributes (sha256 env) (Inmate.profile r')) d = (Ok iid, d1) ->
  upload_img_to_env_bucket_s3 env client blob
    (Inmate.get_hash_on_core_attributes (sha256 env) (Inmate.profile r')) = false ->
  exists d' row,
    serialize_record env r' (Some client) d = (Ok iid, d') /\
    serialize_records env [r] oai_client (Some client) d = (1%nat, 0%nat, d') /\
    inmate_rows d' = inmate_rows d ++ [row] /\ id row = iid /\ img_url row = Some ""%string.
Proof.
  intros Hwf Hr Hb Hne Hins Hup.
  assert (Hc : has_s3_upload_criteria (Inmate.profile r') (Some client) = true).
  { unfold has_s3_upload_criteria. rewrite Hb. destruct blob; [congruence | reflexivity]. }
  assert (Hins' : insert_inmate env (Inmate.profile r')
                    (if has_s3_upload_criteria (Inmate.profile r') (Some client)
                     then Inmate.get_hash_on_core_attributes (sha256 env) (Inmate.profile r')
                     else ""%string) d = (Ok iid, d1)) by (rewrite Hc; exact Hins).
  destruct (serialize_record_inserted env r' (Some client) d iid d1 Hwf Hins')
    as [d' [row [Hrun [Hrows [Hid Hurl]]]]].
  unfold stored_img_url in Hurl. rewrite Hc, Hb, Hup in Hurl.
  exists d', row. split; [exact Hrun|]. split; [|split; [exact Hrows | split; assumption]].
  unfold serialize_records. simpl. rewrite Hr, Hrun. reflexivity.
Qed.

Lemma upload_failure_still_inserted_witness :
  exists d' row,
    serialize_record fixture_env fixture_record (Some fixture_client) empty_db = (Ok 1%Z, d') /\
    serialize_records fixture_env [fixture_record] None (Some fixture_client) empty_db =
      (1%nat, 0%nat, d') /\
    inmate_rows d' = inmate_rows empty_db ++ [row] /\ id row = 1%Z /\ img_url row = Some ""%string.
Proof.
  apply (upload_failure_still_inserted fixture_env None fixture_client fixture_record
           fixture_record empty_db 1
           (snd (insert_inmate fixture_env fixture_profile
                   (Inmate.get_hash_on_core_attributes (sha256 fixture_env) fixture_profile)
                   empty_db))
           [Byte.x01]).
  - exact empty_db_wf.
  - reflexivity.
  - reflexivity.
  - discriminate.
  - vm_compute. reflexivity.
  - reflexivity.
Defined.


(** ** C9 *)

Definition hex_digits : list ascii := list_ascii_of_string "0123456789abcdef".

Lemma hex_byte_ok (b : Byte.byte) :
  List.forallb (fun c => List.existsb (Ascii.eqb c) hex_digits)
    [Inmate.hex_digit (Byte.to_N b / 16); Inmate.hex_digit (Byte.to_N b mod 16)] = true.
Proof. destruct b; reflexivity. Qed.

Lemma lower_hex_shape h :
  length (list_ascii_of_string (Inmate.lower_hex h)) = (2 * length h)%nat /\
  Forall (fun c => In c hex_digits) (list_ascii_of_string (Inmate.lower_hex h)).
Proof.
  unfold Inmate.lower_hex, Text.of_chars. rewrite list_ascii_of_string_of_list_ascii.
  induction h as [|b h [IHl IHf]]; simpl; [split; [reflexivity | constructor]|].
  split; [rewrite IHl; lia|].
  pose proof (hex_byte_ok b) as Hb. cbn [List.forallb] in Hb.
  apply andb_true_iff in Hb as [H1 Hb]. apply andb_true_iff in Hb as [H2 _].
  apply existsb_exists in H1 as [c1 [Hc1 E1]]. apply Ascii.eqb_eq in E1.
  apply existsb_exists in H2 as [c2 [Hc2 E2]]. apply Ascii.eqb_eq in E2.
  constructor; [rewrite E1; exact Hc1|]. constructor; [rewrite E2; exact Hc2|]. exact IHf.
Qed.

(** C9: the S3 key depends on the four core attributes only; it is
    ["mugshots/"] followed by the lowercase hex digest of their
    concatenation; the backfill [update_null_img_record] writes that
    key, and so does the transactional serializer when the upload
    succeeds. *)
Theorem s3_key_from_core_attributes (env : Env) :
  (forall p q : Inmate.InmateProfile,
     Inmate.first_name p = Inmate.first_name q -> Inmate.last_name p = Inmate.last_name q ->
     Inmate.dob p = Inmate.dob q ->
     Inmate.booking_date_iso8601 p = Inmate.booking_date_iso8601 q ->
     Inmate.get_hash_on_core_attributes (sha256 env) p =
     Inmate.get_hash_on_core_attributes (sha256 env) q) /\
  (forall p : Inmate.InmateProfile,
     let digest := sha256 env (Inmate.utf8_bytes (Inmate.first_name p ++ Inmate.last_name p ++
                                                   Inmate.dob p ++ Inmate.booking_date_iso8601 p)) in
     exists hex,
       Inmate.get_hash_on_core_attributes (sha256 env) p = ("mugshots/" ++ hex)%string /\
       hex = Inmate.lower_hex digest /\
       length (list_ascii_of_string hex) = (2 * length digest)%nat /\
       Forall (fun c => In c hex_digits) (list_ascii_of_string hex)) /\
  (forall inmate_id r aws_s3_client d d',
     update_null_img_record env inmate_id r aws_s3_client d = (Ok tt, d') ->
     inmate_rows d' =
     List.map (fun row => if Z.eqb (id row) inmate_id
                          then with_img_url row (Some (Inmate.get_hash_on_core_attributes
                                                         (sha256 env) (Inmate.profile r)))
                          else row) (inmate_rows d)) /\
  (forall r client blob d iid d1,
     wf d ->
     Inmate.img_blob (Inmate.profile r) = Some blob -> blob <> [] ->
     insert_inmate env (Inmate.profile r)
       (Inmate.get_hash_on_core_attributes (sha256 env) (Inmate.profile r)) d = (Ok iid, d1) ->
     upload_img_to_env_bucket_s3 env client blob
       (Inmate.get_hash_on_core_attributes (sha256 env) (Inmate.profile r)) = true ->
     exists d' row,
       serialize_record env r (Some client) d = (Ok iid, d') /\
       inmate_rows d' = inmate_rows d ++ [row] /\ id row = iid /\
       img_url row = Some (Inmate.get_hash_on_core_attributes (sha256 env) (Inmate.profile r))).
Proof.
  split; [|split; [|split]].
  - intros p q Hf Hl Hd Hb. unfold Inmate.get_hash_on_core_attributes.
    rewrite Hf, Hl, Hd, Hb. reflexivity.
  - intros p digest. eexists. split; [reflexivity|]. split; [reflexivity|].
    apply lower_hex_shape.
  - intros inmate_id r aws_s3_client d d' H. unfold update_null_img_record in H.
    destruct (Inmate.img_blob (Inmate.profile r)) as [blob|] eqn:Hb; [|discriminate].
    destruct (has_s3_upload_criteria (Inmate.profile r) aws_s3_client); simpl in H; [|discriminate].
    destruct aws_s3_client as [c|]; [|discriminate].
    destruct (upload_img_to_env_bucket_s3 _ _ _ _); [|discriminate].
    unfold update_img_url in H. injection H as <-. reflexivity.
  - intros r client blob d iid d1 Hwf Hb Hne Hins Hup.
    assert (Hc : has_s3_upload_criteria (Inmate.profile r) (Some client) = true).
    { unfold has_s3_upload_criteria. rewrite Hb. destruct blob; [congruence | reflexivity]. }
    assert (Hins' : insert_inmate env (Inmate.profile r)
                      (if has_s3_upload_criteria (Inmate.profile r) (Some client)
                       then Inmate.get_hash_on_core_attributes (sha256 env) (Inmate.profile r)
                       else ""%string) d = (Ok iid, d1)) by (rewrite Hc; exact Hins).
    destruct (serialize_record_inserted env r (Some client) d iid d1 Hwf Hins')
      as [d' [row [Hrun [Hrows [Hid Hurl]]]]].
    unfold stored_img_url in Hurl. rewrite Hc, Hb, Hup in Hurl.
    exists d', row. repeat split; assumption.
Qed.

(** ** C10 *)

Lemma u64_as_i32_spec (a : N) :
  (u64_as_i32 a = Z.of_N a <-> (a <= 2 ^ 31 - 1)%N) /\
  (- 2 ^ 31 <= u64_as_i32 a < 2 ^ 31)%Z /\
  (u64_as_i32 a mod 2 ^ 32 = Z.of_N a mod 2 ^ 32)%Z /\
  (2 ^ 31 <= Z.of_N a mod 2 ^ 32 -> u64_as_i32 a < 0)%Z.
Proof.
  unfold u64_as_i32.
  pose proof (Z.mod_pos_bound (Z.of_N a) (2 ^ 32) ltac:(lia)) as Hm.
  assert (Ha : (0 <= Z.of_N a)%Z) by lia.
  destruct (Z.leb_spec (2 ^ 31) (Z.of_N a mod 2 ^ 32)) as [Hge|Hlt].
  - split; [|split; [lia | split]].
    + split; intros H; [lia|].
      rewrite Z.mod_small in Hge by lia. lia.
    + rewrite <- Zminus_mod_idemp_r, Z_mod_same_full, Z.sub_0_r, Z.mod_mod by lia.
      reflexivity.
    + intros _. lia.
  - split; [|split; [lia | split]].
    + split; intros H.
      * rewrite H in Hlt. lia.
      * apply Z.mod_small. lia.
    + apply Z.mod_mod. lia.
    + intros H. lia.
Qed.

(** C10: [serialize_bond] stores [bond_amount as i32]: the stored
    amount equals the extracted one exactly when it is at most
    [2^31 - 1]; in general it is the signed 32-bit value congruent to
    the amount modulo [2^32], negative when the low 32 bits reach
    [2^31]. *)
Theorem bond_amount_stored_as_i32 (iid : Z) (b : Inmate.Bond) (d : Db) :
  In iid (inmate_ids d) ->
  serialize_bond b iid (live d) =
  (Ok tt, live (set_bond_rows d (bond_rows d ++
                 [{| bond_row_id := bond_id_seq d; bond_inmate_id := iid;
                     bond_type_col := Inmate.bond_type b;
                     amount_pennies := u64_as_i32 (Inmate.bond_amount b) |}])
                 (bond_id_seq d + 1))) /\
  (u64_as_i32 (Inmate.bond_amount b) = Z.of_N (Inmate.bond_amount b) <->
   (Inmate.bond_amount b <= 2 ^ 31 - 1)%N) /\
  (- 2 ^ 31 <= u64_as_i32 (Inmate.bond_amount b) < 2 ^ 31)%Z /\
  (u64_as_i32 (Inmate.bond_amount b) mod 2 ^ 32 = Z.of_N (Inmate.bond_amount b) mod 2 ^ 32)%Z /\
  (2 ^ 31 <= Z.of_N (Inmate.bond_amount b) mod 2 ^ 32 -> u64_as_i32 (Inmate.bond_amount b) < 0)%Z.
Proof.
  intros Hiid. split.
  - unfold serialize_bond. apply exec_live, insert_bond_live, Hiid.
  - apply u64_as_i32_spec.
Qed.

Lemma bond_amount_stored_as_i32_witness :
  u64_as_i32 (Inmate.bond_amount fixture_bond) = (- 2 ^ 31)%Z /\
  serialize_bond fixture_bond 1 (live committed_db) =
  (Ok tt, live (set_bond_rows committed_db (bond_rows committed_db ++
                 [{| bond_row_id := bond_id_seq committed_db; bond_inmate_id := 1;
                     bond_type_col := Inmate.bond_type fixture_bond;
                     amount_pennies := u64_as_i32 (Inmate.bond_amount fixture_bond) |}])
                 (bond_id_seq committed_db + 1))).
Proof.
  split; [vm_compute; reflexivity|].
  apply (bond_amount_stored_as_i32 1 fixture_bond committed_db).
  simpl. left. reflexivity.
Defined.


End SerializeFacts.

(* ------------------------------------------------------------------ *)
(** ** The incremental filter *)

Module UtilsFacts.
Import Store Utils.

Definition classified_as_synchronized (rows : list InmateRow) (k : string) : Prop :=
  exists r, In r rows /\ scil_sysid r = Some k /\ img_url_missing r = false.

Definition classified_as_backfill (rows : list InmateRow) (k : string) : Prop :=
  exists r, In r rows /\ scil_sysid r = Some k /\ img_url_missing r = true.

Lemma classify_fold_spec rows :
  forall (blacklist : gset string) (updatelist : gmap string Z),
  let res := List.fold_left classify_record rows (blacklist, updatelist) in
  (forall k, k ∈ res.1 <-> k ∈ blacklist \/ classified_as_synchronized rows k) /\
  (forall k, is_Some (res.2 !! k) <-> is_Some (updatelist !! k) \/ classified_as_backfill rows k) /\
  (forall k v, res.2 !! k = Some v ->
     updatelist !! k = Some v \/
     exists r, In r rows /\ scil_sysid r = Some k /\ img_url_missing r = true /\ id r = v).
Proof.
  unfold classified_as_synchronized, classified_as_backfill.
  induction rows as [|r rows IH]; intros blacklist updatelist; cbv zeta; simpl.
  { split; [|split].
    - intros k. split; [tauto|]. intros [H|(x & [] & _)]. exact H.
    - intros k. split; [tauto|]. intros [H|(x & [] & _)]. exact H.
    - intros k v Hv. left. exact Hv. }
  destruct (scil_sysid r) as [s|] eqn:Hs; [destruct (img_url_missing r) eqn:Hm|].
  - destruct (IH blacklist (<[s := id r]> updatelist)) as (IH1 & IH2 & IH3).
    split; [|split].
    + intros k. rewrite IH1. split.
      * intros [H|(x & Hx & Hk & Hmx)]; [left; exact H|].
        right. exists x. split; [right; exact Hx | split; assumption].
      * intros [H|(x & [<-|Hx] & Hk & Hmx)]; [left; exact H | congruence |].
        right. exists x. split; [exact Hx | split; assumption].
    + intros k. rewrite IH2. rewrite lookup_insert.
      destruct (decide (s = k)) as [<-|Hne].
      * split; [intros _; right; exists r; split; [left; reflexivity | split; assumption]|].
        intros _. left. eexists. reflexivity.
      * split.
        -- intros [H|(x & Hx & Hk & Hmx)]; [left; exact H|].
           right. exists x. split; [right; exact Hx | split; assumption].
        -- intros [H|(x & [<-|Hx] & Hk & Hmx)]; [left; exact H | congruence |].
           right. exists x. split; [exact Hx | split; assumption].
    + intros k v Hv. destruct (IH3 k v Hv) as [H|(x & Hx & Hk & Hmx & Hid)].
      * rewrite lookup_insert in H. destruct (decide (s = k)) as [<-|Hne].
        -- right. exists r. injection H as <-. split; [left; reflexivity | repeat split; assumption].
        -- left. exact H.
      * right. exists x. split; [right; exact Hx | repeat split; assumption].
  - destruct (IH ({[s]} ∪ blacklist) updatelist) as (IH1 & IH2 & IH3).
    split; [|split].
    + intros k. rewrite IH1, elem_of_union, elem_of_singleton. split.
      * intros [[->|H]|(x & Hx & Hk & Hmx)].
        -- right. exists r. split; [left; reflexivity | split; assumption].
        -- left. exact H.
        -- right. exists x. split; [right; exact Hx | split; assumption].
      * intros [H|(x & [<-|Hx] & Hk & Hmx)].
        -- left. right. exact H.
        -- left. left. congruence.
        -- right. exists x. split; [exact Hx | split; assumption].
    + intros k. rewrite IH2. split.
      * intros [H|(x & Hx & Hk & Hmx)]; [left; exact H|].
        right. exists x. split; [right; exact Hx | split; assumption].
      * intros [H|(x & [<-|Hx] & Hk & Hmx)]; [left; exact H | congruence |].
        right. exists x. split; [exact Hx | split; assumption].
    + intros k v Hv. destruct (IH3 k v Hv) as [H|(x & Hx & Hk & Hmx & Hid)]; [left; exact H|].
      right. exists x. split; [right; exact Hx | repeat split; assumption].
  - destruct (IH blacklist updatelist) as (IH1 & IH2 & IH3).
    split; [|split].
    + intros k. rewrite IH1. split.
      * intros [H|(x & Hx & Hk & Hmx)]; [left; exact H|].
        right. exists x. split; [right; exact Hx | split; assumption].
      * intros [H|(x & [<-|Hx] & Hk & Hmx)]; [left; exact H | congruence |].
        right. exists x. split; [exact Hx | split; assumption].
    + intros k. rewrite IH2. split.
      * intros [H|(x & Hx & Hk & Hmx)]; [left; exact H|].
        right. exists x. split; [right; exact Hx | split; assumption].
      * intros [H|(x & [<-|Hx] & Hk & Hmx)]; [left; exact H | congruence |].
        right. exists x. split; [exact Hx | split; assumption].
    + intros k v Hv. destruct (IH3 k v Hv) as [H|(x & Hx & Hk & Hmx & Hid)]; [left; exact H|].
      right. exists x. split; [right; exact Hx | repeat split; assumption].
Qed.

Lemma omap_NoDup_inj {A B} (f : A -> option B) (l : list A) a b k :
  NoDup (omap f l) -> In a l -> In b l -> f a = Some k -> f b = Some k -> a = b.
Proof.
  induction l as [|x l IH]; simpl; [tauto|].
  intros Hnd Ha Hb Hfa Hfb.
  assert (Hin : forall y, In y l -> f y = Some k -> k ∈ omap f l).
  { intros y Hy Hfy. apply list_elem_of_omap. exists y. split; [apply list_elem_of_In; exact Hy | exact Hfy]. }
  destruct Ha as [<-|Ha], Hb as [<-|Hb]; auto.
  - rewrite Hfa in Hnd. apply NoDup_cons in Hnd as [Hk _]. exfalso. exact (Hk (Hin b Hb Hfb)).
  - rewrite Hfb in Hnd. apply NoDup_cons in Hnd as [Hk _]. exfalso. exact (Hk (Hin a Ha Hfa)).
  - apply IH; auto. destruct (f x); [apply NoDup_cons in Hnd as [_ Hnd]|]; exact Hnd.
Qed.

Lemma id_desc_total : Total id_desc.
Proof. intros r1 r2. unfold id_desc. lia. Qed.

(** The counterexample's store: two rows share the natural key
    ["1001"], the older one with an image, the newer one without. *)
Definition sysid_row (i : Z) (sys_id : option string) (url : option string) : InmateRow := {|
  id := i; first_name := "John"; middle_name := None; last_name := "Doe"; affix := None;
  permanent_id := None; sex := None; dob := 7306; arresting_agency := None;
  booking_date := 1704164645 + i; booking_number := None; height := None; weight := None;
  race := None; eye_color := None; img_url := url; scil_sysid := sys_id; embedding := None |}.

Definition shared_key_db : Db :=
  mk_db [sysid_row 1 (Some "1001") (Some "mugshots/0a1b");
         sysid_row 2 (Some "1001") (Some "");
         sysid_row 3 None None] [] [] [] [] [] 4 1 1 1 1.

(** C3 (counterexample): the two sets are not always disjoint. With
    two examined rows sharing the natural key ["1001"], one with an
    image URL and one with an empty one, the key lands in the blacklist
    (synchronized) and in the updatelist (needs backfill) at once;
    nothing in the schema makes [scil_sysid] unique. *)
Lemma filter_sets_overlap :
  get_blacklist_and_updatelist 3 shared_key_db =
    Ok ({["1001"%string]}, {["1001"%string := 2%Z]}) /\
  ~ (forall n d blacklist updatelist,
       get_blacklist_and_updatelist n d = Ok (blacklist, updatelist) ->
       blacklist ## dom updatelist).
Proof.
  assert (Hrun : get_blacklist_and_updatelist 3 shared_key_db =
                 Ok ({["1001"%string]}, {["1001"%string := 2%Z]})).
  { vm_compute. reflexivity. }
  split; [exact Hrun|].
  intros Hdisj.
  apply (Hdisj 3%Z shared_key_db _ _ Hrun "1001"%string); [set_solver|].
  apply elem_of_dom. rewrite lookup_singleton_eq. eexists. reflexivity.
Qed.

(** C3 (amended): for [n >= 0] the filter examines the first [n] rows
    in descending [id] order (a negative [n] is rejected by Postgres);
    a natural key is in the blacklist (synchronized) iff some examined
    row with that key has a non-empty [img_url], and in the updatelist
    (needs backfill) iff some examined row with that key has a null or
    empty one, mapped to the id of such a row; rows with a null key
    contribute nothing. The two sets are disjoint when no natural key
    repeats among the examined rows; a key in both has two examined
    rows. *)
Theorem incremental_filter_classification (n : Z) (d : Db) :
  (0 <= n)%Z ->
  (forall m, (m < 0)%Z -> exists e, get_blacklist_and_updatelist m d = Err e) /\
  exists examined blacklist updatelist,
    recent_records n d = Ok examined /\
    examined = take (Z.to_nat n) (merge_sort id_desc (inmate_rows d)) /\
    merge_sort id_desc (inmate_rows d) ≡ₚ inmate_rows d /\
    Sorted id_desc (merge_sort id_desc (inmate_rows d)) /\
    length examined = Nat.min (Z.to_nat n) (length (inmate_rows d)) /\
    get_blacklist_and_updatelist n d = Ok (blacklist, updatelist) /\
    (forall k, k ∈ blacklist <-> classified_as_synchronized examined k) /\
    (forall k, k ∈ dom updatelist <-> classified_as_backfill examined k) /\
    (forall k v, updatelist !! k = Some v ->
       exists r, In r examined /\ scil_sysid r = Some k /\ img_url_missing r = true /\ id r = v) /\
    (NoDup (omap scil_sysid examined) -> blacklist ## dom updatelist) /\
    (forall k, k ∈ blacklist -> k ∈ dom updatelist ->
       exists r1 r2, In r1 examined /\ In r2 examined /\ r1 <> r2 /\
                     scil_sysid r1 = Some k /\ scil_sysid r2 = Some k).
Proof.
  intros Hn. split.
  { intros m Hm. unfold get_blacklist_and_updatelist, recent_records.
    destruct (Z.ltb_spec m 0); [eexists; reflexivity | lia]. }
  set (examined := take (Z.to_nat n) (merge_sort id_desc (inmate_rows d))).
  destruct (classify_fold_spec examined ∅ ∅) as (H1 & H2 & H3).
  assert (Hrec : recent_records n d = Ok examined).
  { unfold recent_records. destruct (Z.ltb_spec n 0); [lia | reflexivity]. }
  assert (Hsync : forall k, k ∈ (List.fold_left classify_record examined (∅, ∅)).1 <->
                            classified_as_synchronized examined k).
  { intros k. rewrite H1. split; [intros [H|H]; [set_solver | exact H] | intros H; right; exact H]. }
  assert (Hback : forall k, k ∈ dom (List.fold_left classify_record examined (∅, ∅)).2 <->
                            classified_as_backfill examined k).
  { intros k. rewrite elem_of_dom, H2, lookup_empty.
    split; [intros [[? H]|H]; [discriminate | exact H] | intros H; right; exact H]. }
  assert (Hboth : forall k, k ∈ (List.fold_left classify_record examined (∅, ∅)).1 ->
                            k ∈ dom (List.fold_left classify_record examined (∅, ∅)).2 ->
                            exists r1 r2, In r1 examined /\ In r2 examined /\ r1 <> r2 /\
                                          scil_sysid r1 = Some k /\ scil_sysid r2 = Some k).
  { intros k Hk1 Hk2. apply Hsync in Hk1 as (r1 & Hr1 & Hk1 & Hm1).
    apply Hback in Hk2 as (r2 & Hr2 & Hk2 & Hm2).
    exists r1, r2. repeat split; try assumption. intros <-. congruence. }
  exists examined, (List.fold_left classify_record examined (∅, ∅)).1,
         (List.fold_left classify_record examined (∅, ∅)).2.
  split; [exact Hrec|]. split; [reflexivity|].
  split; [apply merge_sort_Permutation|].
  split; [apply Sorted_merge_sort, id_desc_total|].
  split; [subst examined; rewrite length_take, (Permutation_length (merge_sort_Permutation _ _)); reflexivity|].
  split; [unfold get_blacklist_and_updatelist; rewrite Hrec; destruct (List.fold_left _ _ _); reflexivity|].
  split; [exact Hsync|]. split; [exact Hback|].
  split.
  { intros k v Hv. destruct (H3 k v Hv) as [H|H]; [rewrite lookup_empty in H; discriminate | exact H]. }
  split; [|exact Hboth].
  intros Hnd k Hk1 Hk2. destruct (Hboth k Hk1 Hk2) as (r1 & r2 & Hr1 & Hr2 & Hne & Hs1 & Hs2).
  apply Hne. apply (omap_NoDup_inj scil_sysid examined r1 r2 k); assumption.
Qed.

Lemma incremental_filter_classification_witness :
  (0 <= 3)%Z /\
  exists examined blacklist updatelist,
    recent_records 3 shared_key_db = Ok examined /\
    get_blacklist_and_updatelist 3 shared_key_db = Ok (blacklist, updatelist) /\
    (forall k, k ∈ blacklist <-> classified_as_synchronized examined k) /\
    (forall k, k ∈ dom updatelist <-> classified_as_backfill examined k).
Proof.
  split; [lia|].
  destruct (incremental_filter_classification 3 shared_key_db ltac:(lia))
    as [_ (examined & blacklist & updatelist & Hrec & _ & _ & _ & _ & Hrun & Hs & Hb & _)].
  exists examined, blacklist, updatelist. repeat split; try assumption; apply Hs || apply Hb.
Defined.

End UtilsFacts.

(* ------------------------------------------------------------------ *)
(** ** Batches *)

Module BatchFacts.
Import Store Serialize Lib.

(** The records [Record::build] returns for the given natural keys. *)
Definition built_records (build : string -> result Inmate.Record_) (sys_ids : list string)
  : list Inmate.Record_ :=
  omap (fun sys_id => match build sys_id with Ok r => Some r | Err _ => None end) sys_ids.

Lemma fetch_records_loop_all build sys_ids records attempted :
  fetch_records_loop build false sys_ids records attempted =
  (records ++ built_records build sys_ids, attempted ++ sys_ids).
Proof.
  revert records attempted.
  induction sys_ids as [|s rest IH]; intros records attempted; simpl.
  - rewrite !app_nil_r. reflexivity.
  - rewrite IH. unfold built_records. simpl.
    destruct (build s); simpl; rewrite <- !app_assoc; reflexivity.
Qed.

Lemma fetch_records_loop_stop_early build sys_ids records attempted :
  fetch_records_loop build true sys_ids records attempted =
  (records ++ built_records build (firstn 1 sys_ids), attempted ++ firstn 1 sys_ids).
Proof.
  destruct sys_ids as [|s rest]; simpl.
  - rewrite !app_nil_r. reflexivity.
  - unfold built_records. simpl. destruct (build s); simpl; rewrite ?app_nil_r; reflexivity.
Qed.

Lemma serialize_records_loop_app env recs1 recs2 oai_client aws_s3_client i f d :
  serialize_records_loop env (recs1 ++ recs2) oai_client aws_s3_client i f d =
  match serialize_records_loop env recs1 oai_client aws_s3_client i f d with
  | (i', f', d') => serialize_records_loop env recs2 oai_client aws_s3_client i' f' d'
  end.
Proof.
  revert i f d. induction recs1 as [|r recs1 IH]; intros i f d; simpl; [reflexivity|].
  destruct (serialize_record env (embedding_step env oai_client r) aws_s3_client d) as [[a|e] d1];
    apply IH.
Qed.

Lemma serialize_records_loop_counts env records oai_client aws_s3_client i f d :
  match serialize_records_loop env records oai_client aws_s3_client i f d with
  | (i', f', _) => (i' + f' = i + f + length records)%nat
  end.
Proof.
  revert i f d. induction records as [|r records IH]; intros i f d; simpl; [lia|].
  destruct (serialize_record env (embedding_step env oai_client r) aws_s3_client d) as [[a|e] d1].
  - specialize (IH (S i) f d1). destruct (serialize_records_loop _ _ _ _ _ _ _) as [[i' f'] d'].
    lia.
  - specialize (IH i (S f) d1). destruct (serialize_records_loop _ _ _ _ _ _ _) as [[i' f'] d'].
    lia.
Qed.

(** C8: records are processed independently. The discovery loop calls
    [Record::build] on every listed natural key (only the first one
    when [STOP_EARLY] is set) whatever the outcome of earlier builds,
    and keeps the successful ones in order. The serialization loop
    runs the rest of the batch from the store the prefix left, a
    failing record only bumping the failure counter, and the two
    counters add up to the batch size. *)
Theorem records_processed_independently :
  (forall fetch_inmate_sysids build stop_early,
     fetch_records fetch_inmate_sysids build stop_early =
     match fetch_inmate_sysids with
     | Err _ => Err NetworkError
     | Ok sys_ids =>
         let attempted := if stop_early then firstn 1 sys_ids else sys_ids in
         Ok (built_records build attempted, attempted)
     end) /\
  (forall env records oai_client aws_s3_client d,
     match serialize_records env records oai_client aws_s3_client d with
     | (inserted_count, failed_count, _) => (inserted_count + failed_count = length records)%nat
     end) /\
  (forall env recs1 recs2 oai_client aws_s3_client i f d,
     serialize_records_loop env (recs1 ++ recs2) oai_client aws_s3_client i f d =
     match serialize_records_loop env recs1 oai_client aws_s3_client i f d with
     | (i', f', d') => serialize_records_loop env recs2 oai_client aws_s3_client i' f' d'
     end) /\
  (forall env r rest oai_client aws_s3_client i f d e d1,
     serialize_record env (embedding_step env oai_client r) aws_s3_client d = (Err e, d1) ->
     serialize_records_loop env (r :: rest) oai_client aws_s3_client i f d =
     serialize_records_loop env rest oai_client aws_s3_client i (S f) d1).
Proof.
  split; [|split; [|split]].
  - intros [sys_ids|e] build stop_early; [|reflexivity].
    unfold fetch_records. destruct stop_early.
    + rewrite fetch_records_loop_stop_early. reflexivity.
    + rewrite fetch_records_loop_all. reflexivity.
  - intros env records oai_client aws_s3_client d.
    apply (serialize_records_loop_counts env records oai_client aws_s3_client 0 0 d).
  - apply serialize_records_loop_app.
  - intros env r rest oai_client aws_s3_client i f d e d1 H. simpl. rewrite H. reflexivity.
Qed.

End BatchFacts.

(* ------------------------------------------------------------------ *)
Module BondFacts.
Import Text Money Inmate MoneyFacts.

Lemma parse_u64_digits_overflow acc l :
  Forall (fun c => is_digit c = true) l -> (acc <= u64_max)%N ->
  (u64_max < digits_value acc l)%N -> parse_u64_digits acc l = None.
Proof.
  intros Hd. revert acc. induction Hd as [|c l Hc _ IH]; intros acc Hacc Hmax; simpl.
  - unfold digits_value in Hmax. simpl in Hmax. lia.
  - rewrite Hc. destruct (N.leb_spec (acc * 10 + digit_value c) u64_max); [|reflexivity].
    apply IH; [assumption | exact Hmax].
Qed.

Lemma filter_is_digit_all l : Forall (fun c => is_digit c = true) (List.filter is_digit l).
Proof.
  apply Forall_forall. intros c Hc. apply list_elem_of_In, filter_In in Hc. apply Hc.
Qed.

Lemma dollars_to_cents_spec (s : string) :
  let ds := List.filter is_digit (chars s) in
  dollars_to_cents s =
  match ds with
  | [] => 0%N
  | _ => if (digits_value 0 ds <=? u64_max)%N then digits_value 0 ds else 0%N
  end.
Proof.
  cbv zeta. unfold dollars_to_cents, parse_u64, chars, of_chars.
  rewrite list_ascii_of_string_of_list_ascii.
  pose proof (filter_is_digit_all (list_ascii_of_string s)) as Hall.
  destruct (List.filter is_digit (list_ascii_of_string s)) as [|c rest] eqn:Hds; [reflexivity|].
  inversion Hall as [|? ? Hc _]; subst.
  replace (Ascii.eqb c "+"%char) with false
    by (destruct (Ascii.eqb_spec c "+"%char); [subst; discriminate | reflexivity]).
  destruct (N.leb_spec (digits_value 0 (c :: rest)) u64_max).
  - rewrite parse_u64_digits_value by assumption. reflexivity.
  - rewrite parse_u64_digits_overflow by (assumption || (unfold u64_max; lia)). reflexivity.
Qed.

(** X1: [dollars_to_cents] keeps only the ASCII digits of its input and parses them as a [u64]; it returns 0 when there is no digit or when the digits exceed [u64::MAX]. *)
Theorem dollars_to_cents_digits (s : string) :
  let ds := List.filter is_digit (chars s) in
  dollars_to_cents s =
  match ds with
  | [] => 0%N
  | _ => if (digits_value 0 ds <=? u64_max)%N then digits_value 0 ds else 0%N
  end.
Proof. exact (dollars_to_cents_spec s). Qed.


(* the digits of a formatted amount *)
Lemma cents_to_dollars_value (a : N) :
  (a <= u64_max)%N -> dollars_to_cents (cents_to_dollars a) = a.
Proof.
  intros Ha. rewrite dollars_to_cents_spec. cbv zeta.
  unfold cents_to_dollars, chars, of_chars.
  rewrite list_ascii_of_string_of_list_ascii.
  set (pad := pad_zero 2 (show_N (a mod 100))).
  assert (Hpad : Forall (fun c => is_digit c = true) pad).
  { unfold pad, pad_zero. apply Forall_app. split; [|apply show_N_digits].
    apply Forall_forall. intros c Hc. apply list_elem_of_In, repeat_spec in Hc. subst. reflexivity. }
  assert (Hlen : length pad = 2%nat).
  { unfold pad, pad_zero. rewrite length_app, repeat_length.
    pose proof (show_N_length_lt_100 (a mod 100) (N.mod_lt a 100 ltac:(lia))). lia. }
  assert (Hval : digits_value 0 (show_N (a / 100) ++ pad) = a).
  { rewrite digits_value_app, show_N_value, digits_value_acc, Hlen.
    unfold pad. rewrite pad_zero_value, show_N_value.
    pose proof (N.div_mod a 100 ltac:(lia)). simpl. lia. }
  cbn [List.filter]. change (is_digit "$"%char) with false. cbv iota.
  rewrite List.filter_app. cbn [List.filter]. change (is_digit "."%char) with false.
  cbv iota. rewrite (filter_digits_id _ (show_N_digits _)), (filter_digits_id _ Hpad).
  rewrite Hval.
  destruct (show_N_cons (a / 100)) as [c [rest Hcr]]. rewrite Hcr.
  cbn [app]. destruct (N.leb_spec a u64_max); [reflexivity | lia].
Qed.

Lemma sum_mod_small (f : Bond -> N) l acc :
  (acc + fold_right N.add 0 (List.map f l) < 2 ^ 64)%N ->
  List.fold_left (fun acc b => ((acc + f b) mod 2 ^ 64)%N) l acc =
  (acc + fold_right N.add 0 (List.map f l))%N.
Proof.
  revert acc. induction l as [|b l IH]; intros acc H; simpl in *; [lia|].
  rewrite N.mod_small by lia. rewrite IH by lia. lia.
Qed.

(** X2: the total bond description is [unbondable] exactly when the type of some bond lowercases to [unbondable]. *)
Theorem total_bond_description_unbondable (bi : BondInformation) :
  get_total_bond_description bi = "unbondable"%string <->
  Exists (fun b => to_ascii_lowercase (bond_type b) = "unbondable"%string) (bonds bi).
Proof.
  unfold get_total_bond_description. rewrite Exists_exists.
  destruct (List.existsb _ _) eqn:He.
  - apply existsb_exists in He as [b [Hb Heq]]. apply String.eqb_eq in Heq.
    split; [intros _ | reflexivity]. exists b. split; [apply list_elem_of_In; exact Hb | exact Heq].
  - split.
    + unfold cents_to_dollars, of_chars. cbn [string_of_list_ascii]. intros H. inversion H.
    + intros [b [Hb Heq]]. apply list_elem_of_In in Hb.
      assert (List.existsb (fun b => String.eqb (to_ascii_lowercase (bond_type b)) "unbondable") (bonds bi) = true)
        by (apply existsb_exists; exists b; split; [exact Hb | apply String.eqb_eq; exact Heq]).
      congruence.
Qed.

(** X3: when no bond is unbondable and the amounts sum to at most [u64::MAX], parsing the total bond description back with [dollars_to_cents] gives the sum of the bond amounts. *)
Theorem total_bond_description_amount (bi : BondInformation) :
  Forall (fun b => to_ascii_lowercase (bond_type b) <> "unbondable"%string) (bonds bi) ->
  (fold_right N.add 0 (List.map bond_amount (bonds bi)) <= u64_max)%N ->
  dollars_to_cents (get_total_bond_description bi) =
  fold_right N.add 0%N (List.map bond_amount (bonds bi)).
Proof.
  intros Hnot Hsum. unfold get_total_bond_description.
  replace (List.existsb _ _) with false.
  2:{ symmetry. apply not_true_iff_false. intros He.
      apply existsb_exists in He as [b [Hb Heq]]. apply String.eqb_eq in Heq.
      rewrite Forall_forall in Hnot. exact (Hnot b (proj2 (list_elem_of_In _ _) Hb) Heq). }
  cbv zeta. rewrite (sum_mod_small bond_amount) by (unfold u64_max in Hsum; simpl; lia).
  apply cents_to_dollars_value. simpl. exact Hsum.
Qed.

Lemma total_bond_description_amount_witness :
  let bi := {| bonds := [{| bond_type := "Cash"; bond_amount := 150000 |};
                         {| bond_type := "Surety"; bond_amount := 2575 |}] |} in
  dollars_to_cents (get_total_bond_description bi) = 152575%N.
Proof.
  cbv zeta. apply total_bond_description_amount.
  - repeat constructor; vm_compute; discriminate.
  - vm_compute. discriminate.
Defined.

End BondFacts.

(* ------------------------------------------------------------------ *)
Module StatementFacts.
Import Store Serialize SerializeFacts.

(** X4: a successful charge insert appends exactly one charge row carrying the inmate id, the description and the grade's [Display] text, and [ChargeGrade::from_string] reads that text back as the same grade. *)
Theorem insert_charge_grade_roundtrip (iid : Z) (c : Inmate.Charge) (d d' : Db) :
  insert_charge iid c d = (Ok tt, d') ->
  exists r, charge_rows d' = charge_rows d ++ [r] /\
            charge_inmate_id r = iid /\ charge_description r = Inmate.description c /\
            charge_grade r = Inmate.charge_grade_to_string (Inmate.grade c) /\
            Inmate.charge_grade_from_string (charge_grade r) = Inmate.grade c.
Proof.
  unfold insert_charge. destruct (negb _); [discriminate|].
  intros H. injection H as <-. eexists. split; [reflexivity|].
  split; [reflexivity|]. split; [reflexivity|].
  destruct (Inmate.grade c); split; reflexivity.
Qed.

Lemma insert_charge_grade_roundtrip_witness :
  let c := {| Inmate.description := "THEFT 5TH DEGREE"; Inmate.grade := Inmate.Felony;
              Inmate.offense_date := "01/01/2024" |} in
  exists r, charge_rows (snd (insert_charge 1 c committed_db)) =
              charge_rows committed_db ++ [r] /\
            charge_inmate_id r = 1%Z /\ charge_description r = Inmate.description c /\
            charge_grade r = Inmate.charge_grade_to_string (Inmate.grade c) /\
            Inmate.charge_grade_from_string (charge_grade r) = Inmate.grade c.
Proof.
  cbv zeta. apply insert_charge_grade_roundtrip. vm_compute. reflexivity.
Defined.


(** upsert *)
(** X5: a successful alias upsert keeps the alias texts free of duplicates, appends at most one alias row, and returns the id of a row holding that alias. *)
Theorem upsert_alias_row (a : string) (d : Db) (i : Z) (d' : Db) :
  NoDup (List.map alias_text (alias_rows d)) ->
  upsert_alias a d = (Ok i, d') ->
  NoDup (List.map alias_text (alias_rows d')) /\
  (exists new, alias_rows d' = alias_rows d ++ new /\ (length new <= 1)%nat) /\
  exists r, In r (alias_rows d') /\ alias_row_id r = i /\ alias_text r = a.
Proof.
  intros Hnd. unfold upsert_alias. destruct (String.eqb a "") eqn:Ha; [discriminate|].
  destruct (List.find _ _) as [r|] eqn:Hf; intros H; injection H as <- <-; simpl.
  - apply List.find_some in Hf as [Hr Ht]. apply String.eqb_eq in Ht.
    split; [exact Hnd|]. split; [exists []; rewrite app_nil_r; split; [reflexivity | simpl; lia]|].
    exists r. auto.
  - split.
    + rewrite map_app. apply NoDup_app. split; [exact Hnd|]. split; [|apply NoDup_singleton].
      intros x Hx Hx'. apply list_elem_of_singleton in Hx'. simpl in Hx'. subst x.
      apply list_elem_of_In, in_map_iff in Hx as (r & Hra & Hr).
      pose proof (List.find_none _ _ Hf r Hr) as Hn. simpl in Hn.
      rewrite Hra, String.eqb_refl in Hn. discriminate.
    + split; [eexists; split; [reflexivity | simpl; lia]|].
      eexists. split; [apply in_or_app; right; left; reflexivity | split; reflexivity].
Qed.

Lemma upsert_alias_row_witness :
  NoDup (List.map alias_text (alias_rows committed_db)) /\
  exists r, In r (alias_rows (snd (upsert_alias "JD" committed_db))) /\
            Ok (alias_row_id r) = fst (upsert_alias "JD" committed_db) /\ alias_text r = "JD"%string.
Proof.
  assert (Hnd : NoDup (List.map alias_text (alias_rows committed_db))) by constructor.
  split; [exact Hnd|].
  destruct (upsert_alias_row "JD" committed_db 1 (snd (upsert_alias "JD" committed_db)) Hnd)
    as (_ & _ & r & Hr & Hid & Ht); [vm_compute; reflexivity|].
  exists r. split; [exact Hr|]. split; [rewrite Hid; vm_compute; reflexivity | exact Ht].
Defined.





(** X8: an inmate insert fails when the first name or the last name is empty, or when an embedding of a length other than 1536 is given. *)
Theorem insert_inmate_rejects env p key d :
  (Inmate.first_name p = ""%string \/ Inmate.last_name p = ""%string \/
   exists v, Inmate.embedding p = Some v /\ length v <> 1536%nat) ->
  exists e, fst (insert_inmate env p key d) = Err e.
Proof.
  intros H. unfold insert_inmate.
  destruct (cast_date env (Inmate.dob p)), (cast_timestamp env (Inmate.booking_date_iso8601 p));
    cbv zeta; try (eexists; reflexivity).
  destruct H as [H|[H|(v & Hv & Hl)]].
  - rewrite H. simpl. eexists; reflexivity.
  - rewrite H, orb_true_r. eexists; reflexivity.
  - destruct (_ || _); [eexists; reflexivity|]. rewrite Hv.
    destruct (Nat.eqb_spec (length v) 1536); [contradiction|]. simpl. eexists; reflexivity.
Qed.

Lemma insert_inmate_rejects_witness :
  exists e, fst (insert_inmate fixture_env (Inmate.set_embedding fixture_profile (Some [0%Z]))
                   "" empty_db) = Err e.
Proof.
  apply insert_inmate_rejects. right. right. exists [0%Z]. split; [reflexivity | discriminate].
Defined.

End StatementFacts.

(* ------------------------------------------------------------------ *)
Module BackfillFacts.
Import Store Serialize SerializeFacts.

(** The S3 key of a record. *)
Definition s3_key (env : Env) (record : Inmate.Record_) : string :=
  Inmate.get_hash_on_core_attributes (sha256 env) (Inmate.profile record).

Lemma set_inmate_rows_same d : set_inmate_rows d (inmate_rows d) (inmate_id_seq d) = d.
Proof. destruct d; reflexivity. Qed.

Lemma with_img_url_same r : with_img_url r (img_url r) = r.
Proof. destruct r; reflexivity. Qed.

Lemma with_img_url_twice r u v : with_img_url (with_img_url r u) v = with_img_url r v.
Proof. reflexivity. Qed.

(** X9: [update_null_img_record] fails with an internal error and changes nothing when the record or the client does not meet the S3 upload criteria. *)
Theorem backfill_needs_upload_criteria env iid record aws_s3_client d :
  has_s3_upload_criteria (Inmate.profile record) aws_s3_client = false ->
  exists msg, update_null_img_record env iid record aws_s3_client d = (Err (InternalError msg), d).
Proof.
  intros Hc. unfold update_null_img_record. rewrite Hc.
  destruct (Inmate.img_blob (Inmate.profile record)); eexists; reflexivity.
Qed.

Lemma backfill_needs_upload_criteria_witness :
  exists msg, update_null_img_record fixture_env 1 fixture_record None committed_db =
              (Err (InternalError msg), committed_db).
Proof. apply backfill_needs_upload_criteria. vm_compute. reflexivity. Defined.

(** X10: when the image upload fails, [update_null_img_record] returns the S3 error and changes nothing. *)
Theorem backfill_upload_failure env iid record client blob d :
  Inmate.img_blob (Inmate.profile record) = Some blob -> blob <> [] ->
  upload_img_to_env_bucket_s3 env client blob (s3_key env record) = false ->
  update_null_img_record env iid record (Some client) d = (Err (S3Error "aws_sdk_3 SdkError"), d).
Proof.
  intros Hb Hne Hu. unfold update_null_img_record, has_s3_upload_criteria, s3_key in *.
  rewrite Hb. destruct blob as [|x blob]; [contradiction|]. simpl. rewrite Hu. reflexivity.
Qed.

Lemma backfill_upload_failure_witness :
  update_null_img_record fixture_env 1 fixture_record (Some fixture_client) committed_db =
  (Err (S3Error "aws_sdk_3 SdkError"), committed_db).
Proof.
  apply (backfill_upload_failure _ _ _ _ [Byte.x01]); [reflexivity | discriminate | reflexivity].
Defined.

Lemma update_null_img_record_ok env iid record aws_s3_client d d' :
  update_null_img_record env iid record aws_s3_client d = (Ok tt, d') ->
  (exists client blob,
     aws_s3_client = Some client /\ Inmate.img_blob (Inmate.profile record) = Some blob /\
     blob <> [] /\ upload_img_to_env_bucket_s3 env client blob (s3_key env record) = true) /\
  d' = set_inmate_rows d
         (List.map (fun r => if Z.eqb (id r) iid then with_img_url r (Some (s3_key env record)) else r)
                   (inmate_rows d))
         (inmate_id_seq d).
Proof.
  unfold update_null_img_record, s3_key.
  destruct (Inmate.img_blob (Inmate.profile record)) as [blob|] eqn:Hb; [|discriminate].
  destruct (negb (has_s3_upload_criteria _ _)) eqn:Hc; [discriminate|].
  unfold has_s3_upload_criteria in Hc. rewrite Hb in Hc.
  destruct aws_s3_client as [client|]; [|rewrite andb_false_r in Hc; discriminate].
  destruct (upload_img_to_env_bucket_s3 _ _ _ _) eqn:Hu; [|discriminate].
  intros H. injection H as <-. split; [|reflexivity].
  exists client, blob. repeat split; auto.
  intros ->. discriminate.
Qed.

(** X11: [update_null_img_record] succeeds only after a successful upload of a non-empty image with a client present, and then it sets the img_url of the rows with that id to the record's S3 key and changes nothing else. *)
Theorem backfill_success env iid record aws_s3_client d d' :
  update_null_img_record env iid record aws_s3_client d = (Ok tt, d') ->
  (exists client blob,
     aws_s3_client = Some client /\ Inmate.img_blob (Inmate.profile record) = Some blob /\
     blob <> [] /\ upload_img_to_env_bucket_s3 env client blob (s3_key env record) = true) /\
  d' = set_inmate_rows d
         (List.map (fun r => if Z.eqb (id r) iid then with_img_url r (Some (s3_key env record)) else r)
                   (inmate_rows d))
         (inmate_id_seq d).
Proof. exact (update_null_img_record_ok env iid record aws_s3_client d d'). Qed.


Definition fixture_upload_env : Env := {|
  sha256 := sha256 fixture_env; cast_date := cast_date fixture_env;
  cast_timestamp := cast_timestamp fixture_env;
  upload_img_to_env_bucket_s3 := fun _ _ _ => true;
  openai_embedding := openai_embedding fixture_env |}.

Lemma backfill_success_witness :
  exists client blob,
    Some fixture_client = Some client /\ Inmate.img_blob (Inmate.profile fixture_record) = Some blob /\
    blob <> [] /\ upload_img_to_env_bucket_s3 fixture_upload_env client blob (s3_key fixture_upload_env fixture_record) = true.
Proof.
  refine (proj1 (backfill_success fixture_upload_env 1 fixture_record (Some fixture_client)
                   committed_db (snd (update_null_img_record fixture_upload_env 1 fixture_record
                                        (Some fixture_client) committed_db)) _)).
  vm_compute. reflexivity.
Defined.

(** X12: when no inmate row has the given id, [update_null_img_record] leaves the store unchanged, whatever it returns. *)
Theorem backfill_absent_id env iid record aws_s3_client d :
  ~ In iid (inmate_ids d) ->
  snd (update_null_img_record env iid record aws_s3_client d) = d.
Proof.
  intros Hn. destruct (update_null_img_record env iid record aws_s3_client d) as [[[]|e] d'] eqn:E.
  - apply update_null_img_record_ok in E as [_ ->]. simpl.
    rewrite map_ext_in with (g := fun r => r); [rewrite map_id; apply set_inmate_rows_same|].
    intros r Hr. destruct (Z.eqb_spec (id r) iid); [|reflexivity].
    exfalso. apply Hn. subst. apply in_map. exact Hr.
  - simpl. revert E. unfold update_null_img_record.
    repeat case_match.
    all: intros Herr; try (unfold update_img_url in Herr; discriminate); inversion Herr; reflexivity.
Qed.

Lemma backfill_absent_id_witness :
  snd (update_null_img_record fixture_upload_env 7 fixture_record (Some fixture_client) committed_db)
  = committed_db.
Proof. apply backfill_absent_id. vm_compute. intros [H|[]]. discriminate. Defined.

(** The batch *)
(** X13: without an S3 client the batch fails at once and changes nothing; with one it succeeds, and its updated and failed counters add up to the number of records. *)
Theorem backfill_batch_counts env records aws_s3_client d :
  match aws_s3_client with
  | None => update_null_img_records env records aws_s3_client d =
            (Err (InternalError "No S3 client found. Cannot update null img records."), d)
  | Some _ => exists u f d', update_null_img_records env records aws_s3_client d = (Ok (u, f), d') /\
                             (u + f = length records)%nat
  end.
Proof.
  destruct aws_s3_client as [client|]; [|reflexivity].
  unfold update_null_img_records.
  assert (H : forall recs u0 f0 d0,
             match update_null_img_records_loop env recs (Some client) u0 f0 d0 with
             | (u, f, _) => (u + f = u0 + f0 + length recs)%nat
             end).
  { induction recs as [|[i r] recs IH]; intros u0 f0 d0; simpl; [lia|].
    destruct (update_null_img_record env i r (Some client) d0) as [[a|e] d1].
    - specialize (IH (S u0) f0 d1). destruct (update_null_img_records_loop _ _ _ _ _ _) as [[u f] d'].
      lia.
    - specialize (IH u0 (S f0) d1). destruct (update_null_img_records_loop _ _ _ _ _ _) as [[u f] d'].
      lia. }
  specialize (H records 0%nat 0%nat d).
  destruct (update_null_img_records_loop _ _ _ _ _ _) as [[u f] d']. eauto.
Qed.

(** Only the [img_url] column changes, only on rows whose id is in the
    batch, and only to that record's S3 key. *)
Definition backfilled_from (env : Env) (records : list (Z * Inmate.Record_)) (r r' : InmateRow)
  : Prop :=
  r' = with_img_url r (img_url r') /\
  (img_url r' = img_url r \/
   exists record, In (id r, record) records /\ img_url r' = Some (s3_key env record)).

Lemma backfilled_refl env records r : backfilled_from env records r r.
Proof. split; [symmetry; apply with_img_url_same | left; reflexivity]. Qed.

Lemma backfilled_trans env records r r1 r2 :
  backfilled_from env records r r1 -> backfilled_from env records r1 r2 ->
  backfilled_from env records r r2.
Proof.
  intros [H1 D1] [H2 D2]. split.
  - rewrite H2, H1 at 1. reflexivity.
  - assert (Hid : id r1 = id r) by (rewrite H1; reflexivity).
    destruct D2 as [E2|(rec & Hin & E2)].
    + rewrite E2. exact D1.
    + right. exists rec. rewrite <- Hid. auto.
Qed.

Lemma backfilled_weaken env records extra r r' :
  backfilled_from env records r r' -> backfilled_from env (extra ++ records) r r'.
Proof.
  intros [H D]. split; [exact H|]. destruct D as [E|(rec & Hin & E)]; [left; exact E|].
  right. exists rec. split; [apply in_or_app; right; exact Hin | exact E].
Qed.

Lemma backfilled_weaken_r env records extra r r' :
  backfilled_from env records r r' -> backfilled_from env (records ++ extra) r r'.
Proof.
  intros [H D]. split; [exact H|]. destruct D as [E|(rec & Hin & E)]; [left; exact E|].
  right. exists rec. split; [apply in_or_app; left; exact Hin | exact E].
Qed.

Definition only_img_urls (env : Env) (records : list (Z * Inmate.Record_)) (d d' : Db) : Prop :=
  Forall2 (backfilled_from env records) (inmate_rows d) (inmate_rows d') /\
  alias_rows d' = alias_rows d /\ inmate_alias_rows d' = inmate_alias_rows d /\
  bond_rows d' = bond_rows d /\ charge_rows d' = charge_rows d /\ img_rows d' = img_rows d /\
  inmate_id_seq d' = inmate_id_seq d /\ alias_id_seq d' = alias_id_seq d /\
  bond_id_seq d' = bond_id_seq d /\ charge_id_seq d' = charge_id_seq d /\
  img_id_seq d' = img_id_seq d.

Lemma only_img_urls_refl env records d : only_img_urls env records d d.
Proof.
  repeat split; try reflexivity.
  induction (inmate_rows d); constructor; [apply backfilled_refl | exact IHl].
Qed.

Lemma Forall2_trans_rel {A} (R : A -> A -> Prop) (Htr : forall x y z, R x y -> R y z -> R x z)
  l1 l2 l3 : Forall2 R l1 l2 -> Forall2 R l2 l3 -> Forall2 R l1 l3.
Proof.
  intros H12. revert l3. induction H12 as [|x y l1 l2 Hxy _ IH]; intros l3 H23;
    inversion H23; subst; constructor; eauto.
Qed.

Lemma only_img_urls_trans env records d1 d2 d3 :
  only_img_urls env records d1 d2 -> only_img_urls env records d2 d3 -> only_img_urls env records d1 d3.
Proof.
  intros (R1 & A1 & B1 & C1 & D1 & E1 & F1 & G1 & H1 & I1 & J1)
         (R2 & A2 & B2 & C2 & D2 & E2 & F2 & G2 & H2 & I2 & J2).
  repeat split; try congruence.
  eapply Forall2_trans_rel; [apply backfilled_trans | exact R1 | exact R2].
Qed.

Lemma only_img_urls_weaken env records extra d d' :
  only_img_urls env records d d' -> only_img_urls env (extra ++ records) d d'.
Proof.
  intros (R & H). split; [|exact H].
  eapply Forall2_impl; [exact R|]. intros. apply backfilled_weaken. assumption.
Qed.

Lemma backfill_one_step env iid record aws_s3_client d :
  only_img_urls env [(iid, record)] d (snd (update_null_img_record env iid record aws_s3_client d)).
Proof.
  destruct (update_null_img_record env iid record aws_s3_client d) as [[[]|e] d'] eqn:E; simpl.
  - apply update_null_img_record_ok in E as [_ ->].
    repeat split; try reflexivity. simpl.
    induction (inmate_rows d) as [|r rows IH]; simpl; constructor; [|exact IH].
    destruct (Z.eqb_spec (id r) iid) as [Hid|Hid].
    + split; [reflexivity|]. right. exists record. split; [left; rewrite Hid; reflexivity | reflexivity].
    + apply backfilled_refl.
  - revert E. unfold update_null_img_record.
    repeat case_match.
    all: intros Herr; try (unfold update_img_url in Herr; discriminate); inversion Herr; apply only_img_urls_refl.
Qed.

(** X14: the backfill batch changes only the img_url column, only on rows whose id appears in the batch, and only to the S3 key of a record given with that id. *)
Theorem backfill_batch_only_img_urls env records aws_s3_client d :
  only_img_urls env records d (snd (update_null_img_records env records aws_s3_client d)).
Proof.
  unfold update_null_img_records. destruct aws_s3_client as [client|]; [|apply only_img_urls_refl].
  assert (H : forall recs u0 f0 d0,
             match update_null_img_records_loop env recs (Some client) u0 f0 d0 with
             | (_, _, d') => only_img_urls env recs d0 d'
             end).
  { induction recs as [|[i r] recs IH]; intros u0 f0 d0; simpl; [apply only_img_urls_refl|].
    pose proof (backfill_one_step env i r (Some client) d0) as Hstep.
    destruct (update_null_img_record env i r (Some client) d0) as [[a|e] d1];
      [specialize (IH (S u0) f0 d1) | specialize (IH u0 (S f0) d1)];
      destruct (update_null_img_records_loop _ _ _ _ _ _) as [[u f] d'];
      (eapply only_img_urls_trans;
       [ change ((i, r) :: recs) with ([(i, r)] ++ recs);
         destruct Hstep as (R & Hrest); split; [|exact Hrest];
         eapply Forall2_impl; [exact R | intros; apply backfilled_weaken_r; assumption]
       | change ((i, r) :: recs) with ([(i, r)] ++ recs); apply only_img_urls_weaken; exact IH ]). }
  specialize (H records 0%nat 0%nat d).
  destruct (update_null_img_records_loop _ _ _ _ _ _) as [[u f] d']. exact H.
Qed.

End BackfillFacts.

(* ------------------------------------------------------------------ *)
Module TxnFacts.
Import Store Serialize SerializeFacts.

Section Preserve.
Variable P : Db -> Db -> Prop.
Hypothesis P_refl : forall d, P d d.
Hypothesis P_trans : forall d1 d2 d3, P d1 d2 -> P d2 d3 -> P d1 d3.

(** [m] relates the store before and after, whatever its outcome. *)
Definition preserves {A} (m : M A) : Prop :=
  forall t r t', m t = (r, t') -> P (txn_db t) (txn_db t').

Definition stmt_preserves {A} (stmt : Db -> result A * Db) : Prop :=
  forall d, P d (snd (stmt d)).

Lemma preserves_ret {A} (a : A) : preserves (ret a).
Proof. intros t r t' H. injection H as _ <-. apply P_refl. Qed.

Lemma preserves_bind {A B} (m : M A) (k : A -> M B) :
  preserves m -> (forall a, preserves (k a)) -> preserves (bind m k).
Proof.
  intros Hm Hk t r t' H. unfold bind in H.
  destruct (m t) as [[a|e] t1] eqn:E.
  - eapply P_trans; [exact (Hm _ _ _ E) | exact (Hk a _ _ _ H)].
  - injection H as _ <-. exact (Hm _ _ _ E).
Qed.

Lemma preserves_exec {A} (stmt : Db -> result A * Db) :
  stmt_preserves stmt -> preserves (exec stmt).
Proof.
  intros Hs t r t' H. unfold exec in H. destruct (aborted t).
  - injection H as _ <-. apply P_refl.
  - specialize (Hs (txn_db t)). destruct (stmt (txn_db t)) as [[a|e] d1];
      injection H as _ <-; exact Hs.
Qed.

Section Statements.
Hypothesis H_insert_inmate : forall env p key, stmt_preserves (insert_inmate env p key).
Hypothesis H_update_img_url : forall iid u, stmt_preserves (update_img_url iid u).
Hypothesis H_upsert_alias : forall a, stmt_preserves (upsert_alias a).
Hypothesis H_insert_inmate_alias : forall iid aid, stmt_preserves (insert_inmate_alias iid aid).
Hypothesis H_insert_img : forall iid img, stmt_preserves (insert_img iid img).
Hypothesis H_insert_bond : forall iid ty a, stmt_preserves (insert_bond iid ty a).
Hypothesis H_insert_charge : forall iid c, stmt_preserves (insert_charge iid c).

Lemma preserves_aliases iid l : preserves (serialize_aliases iid l).
Proof.
  induction l as [|x l IH]; simpl; [apply preserves_ret|].
  destruct (String.eqb x ""); [exact IH|].
  intros t r t' H.
  destruct (serialize_alias x t) as [[aid|e] t1] eqn:E.
  - pose proof (preserves_exec _ (H_upsert_alias x) _ _ _ E) as H1.
    eapply P_trans; [exact H1|].
    exact (preserves_bind _ _ (preserves_exec _ (H_insert_inmate_alias iid aid)) (fun _ => IH) _ _ _ H).
  - eapply P_trans; [exact (preserves_exec _ (H_upsert_alias x) _ _ _ E) | exact (IH _ _ _ H)].
Qed.

Lemma preserves_upload_block env p aws_s3_client key iid :
  preserves
    (if has_s3_upload_criteria p aws_s3_client then
       match aws_s3_client, Inmate.img_blob p with
       | Some client, Some blob =>
           if upload_img_to_env_bucket_s3 env client blob key then ret tt
           else exec (update_img_url iid "")
       | _, _ => ret tt
       end
     else ret tt).
Proof.
  destruct (has_s3_upload_criteria p aws_s3_client); [|apply preserves_ret].
  destruct aws_s3_client, (Inmate.img_blob p); try apply preserves_ret.
  destruct (upload_img_to_env_bucket_s3 _ _ _ _); [apply preserves_ret|].
  apply preserves_exec, H_update_img_url.
Qed.

Lemma preserves_profile env p aws_s3_client : preserves (serialize_profile env p aws_s3_client).
Proof.
  unfold serialize_profile. cbv zeta.
  apply preserves_bind; [apply preserves_exec, H_insert_inmate|]. intros iid.
  apply preserves_bind.
  - destruct (has_s3_upload_criteria p aws_s3_client); [|apply preserves_ret].
    destruct aws_s3_client, (Inmate.img_blob p); try apply preserves_ret.
    destruct (upload_img_to_env_bucket_s3 _ _ _ _); [apply preserves_ret|].
    apply preserves_exec, H_update_img_url.
  - intros _. apply preserves_bind; [apply preserves_aliases|]. intros _.
    apply preserves_bind; [apply preserves_exec, H_insert_img|]. intros _. apply preserves_ret.
Qed.

Lemma preserves_bonds iid l : preserves (serialize_bonds iid l).
Proof.
  induction l as [|b l IH]; simpl; [apply preserves_ret|].
  apply preserves_bind; [apply preserves_exec, H_insert_bond | intros _; exact IH].
Qed.

Lemma preserves_charges iid l : preserves (serialize_charges iid l).
Proof.
  induction l as [|c l IH]; simpl; [apply preserves_ret|].
  apply preserves_bind; [apply preserves_exec, H_insert_charge | intros _; exact IH].
Qed.

End Statements.
End Preserve.

(** The sequences only move forward. *)
Definition seq_le (d d' : Db) : Prop :=
  (inmate_id_seq d <= inmate_id_seq d')%Z /\ (alias_id_seq d <= alias_id_seq d')%Z /\
  (bond_id_seq d <= bond_id_seq d')%Z /\ (charge_id_seq d <= charge_id_seq d')%Z /\
  (img_id_seq d <= img_id_seq d')%Z.

Lemma seq_le_refl d : seq_le d d.
Proof. unfold seq_le. lia. Qed.

Lemma seq_le_trans d1 d2 d3 : seq_le d1 d2 -> seq_le d2 d3 -> seq_le d1 d3.
Proof. unfold seq_le. lia. Qed.

Ltac stmt_seq :=
  intros; unfold stmt_preserves; intros ?d;
  repeat (unfold insert_inmate, update_img_url, upsert_alias, insert_inmate_alias,
                 insert_img, insert_bond, insert_charge, set_inmate_rows, set_alias_rows,
                 set_inmate_alias_rows, set_bond_rows, set_charge_rows, set_img_rows, mk_db, seq_le;
          cbv zeta; repeat case_match; simpl; try lia).

Lemma body_seq_le env r aws_s3_client :
  preserves seq_le
    (let* inmate_id := serialize_profile env (Inmate.profile r) aws_s3_client in
     let* _ := serialize_bonds inmate_id (Inmate.bonds (Inmate.bond r)) in
     let* _ := serialize_charges inmate_id (Inmate.charge_list (Inmate.charges r)) in
     ret inmate_id).
Proof.
  assert (Hr := seq_le_refl). assert (Ht := seq_le_trans).
  apply preserves_bind; auto.
  - apply preserves_profile; auto; stmt_seq.
  - intros iid. apply preserves_bind; auto; [apply preserves_bonds; auto; stmt_seq|].
    intros _. apply preserves_bind; auto; [apply preserves_charges; auto; stmt_seq|].
    intros _. apply preserves_ret; auto.
Qed.

Lemma serialize_record_seq_le env r aws_s3_client d :
  seq_le d (snd (serialize_record env r aws_s3_client d)).
Proof.
  unfold serialize_record. cbv zeta.
  match goal with
  | |- context [match ?b {| txn_db := d; aborted := false |} with _ => _ end] =>
      destruct (b {| txn_db := d; aborted := false |}) as [res t] eqn:E
  end.
  pose proof (body_seq_le env r aws_s3_client _ _ _ E) as H. simpl in H.
  destruct res; [destruct (aborted t)|]; simpl; exact H.
Qed.

(** X15: [serialize_record] never moves an id sequence backwards, whether it commits or rolls back. *)
Theorem serialize_record_never_reuses_ids env r aws_s3_client d :
  let d' := snd (serialize_record env r aws_s3_client d) in
  (inmate_id_seq d <= inmate_id_seq d')%Z /\ (alias_id_seq d <= alias_id_seq d')%Z /\
  (bond_id_seq d <= bond_id_seq d')%Z /\ (charge_id_seq d <= charge_id_seq d')%Z /\
  (img_id_seq d <= img_id_seq d')%Z.
Proof. exact (serialize_record_seq_le env r aws_s3_client d). Qed.

Lemma serialize_record_atomic_frame env r aws_s3_client d e d' :
  serialize_record env r aws_s3_client d = (Err e, d') ->
  inmate_rows d' = inmate_rows d /\ alias_rows d' = alias_rows d /\
  inmate_alias_rows d' = inmate_alias_rows d /\ bond_rows d' = bond_rows d /\
  charge_rows d' = charge_rows d /\ img_rows d' = img_rows d.
Proof.
  unfold serialize_record. cbv zeta.
  match goal with
  | |- context [match ?b {| txn_db := d; aborted := false |} with _ => _ end] =>
      destruct (b {| txn_db := d; aborted := false |}) as [[a|e'] t]
  end.
  - destruct (aborted t); discriminate.
  - intros H. injection H as _ <-. repeat split.
Qed.

(** X16: when [serialize_record] fails, all six tables are as they were before it. *)
Theorem serialize_record_atomic env r aws_s3_client d e d' :
  serialize_record env r aws_s3_client d = (Err e, d') ->
  inmate_rows d' = inmate_rows d /\ alias_rows d' = alias_rows d /\
  inmate_alias_rows d' = inmate_alias_rows d /\ bond_rows d' = bond_rows d /\
  charge_rows d' = charge_rows d /\ img_rows d' = img_rows d.
Proof.
  unfold serialize_record. cbv zeta.
  match goal with
  | |- context [match ?b {| txn_db := d; aborted := false |} with _ => _ end] =>
      destruct (b {| txn_db := d; aborted := false |}) as [[a|e'] t]
  end.
  - destruct (aborted t); discriminate.
  - intros H. injection H as _ <-. repeat split.
Qed.

Lemma serialize_record_atomic_witness :
  exists e, serialize_record fixture_env fixture_record None committed_db =
            (Err e, snd (serialize_record fixture_env fixture_record None committed_db)) /\
  inmate_rows (snd (serialize_record fixture_env fixture_record None committed_db)) =
  inmate_rows committed_db.
Proof.
  destruct (serialize_record fixture_env fixture_record None committed_db) as [[a|e] d'] eqn:E;
    [vm_compute in E; discriminate|].
  exists e. split; [reflexivity|]. simpl.
  exact (proj1 (serialize_record_atomic _ _ _ _ _ _ E)).
Defined.

(** The commit *)
Lemma bind_ok_inv {A B} (m : M A) (k : A -> M B) t b t' :
  bind m k t = (Ok b, t') -> exists a t1, m t = (Ok a, t1) /\ k a t1 = (Ok b, t').
Proof.
  unfold bind. destruct (m t) as [[a|e] t1]; [|discriminate]. intros H. eauto.
Qed.

Lemma exec_ok_inv {A} (stmt : Db -> result A * Db) t a t' :
  exec stmt t = (Ok a, t') ->
  aborted t = false /\ stmt (txn_db t) = (Ok a, txn_db t') /\ aborted t' = false.
Proof.
  unfold exec. destruct (aborted t); [discriminate|].
  destruct (stmt (txn_db t)) as [[a'|e] d1]; [|discriminate].
  intros H. injection H as <- <-. auto.
Qed.

Definition same_bonds (d d' : Db) : Prop := bond_rows d' = bond_rows d.
Definition same_charges (d d' : Db) : Prop := charge_rows d' = charge_rows d.
Definition same_imgs (d d' : Db) : Prop := img_rows d' = img_rows d.

Ltac frame :=
  intros; unfold stmt_preserves; intros ?d;
  repeat (unfold insert_inmate, update_img_url, upsert_alias, insert_inmate_alias,
                 insert_img, insert_bond, insert_charge, set_inmate_rows, set_alias_rows,
                 set_inmate_alias_rows, set_bond_rows, set_charge_rows, set_img_rows, mk_db,
                 same_bonds, same_charges, same_imgs;
          cbv zeta; repeat case_match; simpl; try reflexivity).


Lemma profile_ok_shape env p aws_s3_client t iid t' :
  serialize_profile env p aws_s3_client t = (Ok iid, t') ->
  aborted t' = false /\ bond_rows (txn_db t') = bond_rows (txn_db t) /\
  charge_rows (txn_db t') = charge_rows (txn_db t) /\
  exists img_row, img_rows (txn_db t') = img_rows (txn_db t) ++ [img_row] /\
                  img_inmate_id img_row = iid /\ img_col img_row = Inmate.img_blob p.
Proof.
  intros H.
  assert (Hb := preserves_profile same_bonds (fun _ => eq_refl) (fun _ _ _ H1 H2 => eq_trans H2 H1)
                  ltac:(frame) ltac:(frame) ltac:(frame) ltac:(frame) ltac:(frame)
                  env p aws_s3_client _ _ _ H).
  assert (Hc := preserves_profile same_charges (fun _ => eq_refl) (fun _ _ _ H1 H2 => eq_trans H2 H1)
                  ltac:(frame) ltac:(frame) ltac:(frame) ltac:(frame) ltac:(frame)
                  env p aws_s3_client _ _ _ H).
  unfold serialize_profile in H. cbv zeta in H.
  apply bind_ok_inv in H as (iid0 & t1 & H1 & H).
  apply bind_ok_inv in H as (u & t2 & H2 & H).
  apply bind_ok_inv in H as (u' & t3 & H3 & H).
  apply bind_ok_inv in H as (u'' & t4 & H4 & H).
  unfold ret in H. injection H as <- <-.
  assert (I1 : same_imgs (txn_db t) (txn_db t1)) by (refine (preserves_exec same_imgs (fun _ => eq_refl) _ _ _ _ _ H1); frame).
  pose proof (preserves_upload_block same_imgs (fun _ => eq_refl) ltac:(frame)
                env p aws_s3_client _ iid0 _ _ _ H2) as I2.
  pose proof (preserves_aliases same_imgs (fun _ => eq_refl) (fun _ _ _ H1 H2 => eq_trans H2 H1)
                ltac:(frame) ltac:(frame) iid0 _ _ _ _ H3) as I3.
  apply exec_ok_inv in H4 as (_ & H4 & Hab).
  unfold insert_img in H4. destruct (negb _); [discriminate|].
  injection H4 as _ H4.
  split; [exact Hab|]. split; [exact Hb|]. split; [exact Hc|].
  unfold same_imgs in I1, I2, I3. rewrite <- H4. simpl. rewrite I3, I2, I1.
  eexists. split; [reflexivity | split; reflexivity].
Qed.

Lemma bonds_ok_shape iid l t t' :
  serialize_bonds iid l t = (Ok tt, t') -> aborted t = false ->
  aborted t' = false /\ charge_rows (txn_db t') = charge_rows (txn_db t) /\
  img_rows (txn_db t') = img_rows (txn_db t) /\
  exists new, bond_rows (txn_db t') = bond_rows (txn_db t) ++ new /\
    List.map (fun r => (bond_inmate_id r, bond_type_col r, amount_pennies r)) new =
    List.map (fun b => (iid, Inmate.bond_type b, u64_as_i32 (Inmate.bond_amount b))) l.
Proof.
  revert t. induction l as [|b l IH]; intros t H Hab; simpl in H.
  - injection H as <-. repeat split; auto. exists []. rewrite app_nil_r. auto.
  - apply bind_ok_inv in H as ([] & t1 & H1 & H).
    apply exec_ok_inv in H1 as (_ & H1 & Hab1).
    destruct (IH t1 H Hab1) as (Hab' & Hc & Hi & new & Hb & Hmap).
    unfold insert_bond in H1. destruct (negb _); [discriminate|].
    injection H1 as H1. rewrite <- H1 in Hc, Hi, Hb. simpl in Hc, Hi, Hb.
    split; [exact Hab'|]. split; [exact Hc|]. split; [exact Hi|].
    eexists. split; [rewrite Hb, <- app_assoc; reflexivity|]. simpl. rewrite Hmap. reflexivity.
Qed.

Lemma charges_ok_shape iid l t t' :
  serialize_charges iid l t = (Ok tt, t') -> aborted t = false ->
  aborted t' = false /\ bond_rows (txn_db t') = bond_rows (txn_db t) /\
  img_rows (txn_db t') = img_rows (txn_db t) /\
  exists new, charge_rows (txn_db t') = charge_rows (txn_db t) ++ new /\
    List.map (fun r => (charge_inmate_id r, charge_description r, charge_grade r,
                        charge_offense_date r)) new =
    List.map (fun c => (iid, Inmate.description c, Inmate.charge_grade_to_string (Inmate.grade c),
                        Inmate.offense_date c)) l.
Proof.
  revert t. induction l as [|c l IH]; intros t H Hab; simpl in H.
  - injection H as <-. repeat split; auto. exists []. rewrite app_nil_r. auto.
  - apply bind_ok_inv in H as ([] & t1 & H1 & H).
    apply exec_ok_inv in H1 as (_ & H1 & Hab1).
    destruct (IH t1 H Hab1) as (Hab' & Hb & Hi & new & Hc & Hmap).
    unfold insert_charge in H1. destruct (negb _); [discriminate|].
    injection H1 as H1. rewrite <- H1 in Hc, Hi, Hb. simpl in Hc, Hi, Hb.
    split; [exact Hab'|]. split; [exact Hb|]. split; [exact Hi|].
    eexists. split; [rewrite Hc, <- app_assoc; reflexivity|]. simpl. rewrite Hmap.
    destruct (Inmate.grade c); reflexivity.
Qed.

Lemma serialize_record_ok_shape env r aws_s3_client d iid d' :
  serialize_record env r aws_s3_client d = (Ok iid, d') ->
  (exists new_bonds, bond_rows d' = bond_rows d ++ new_bonds /\
     List.map (fun b => (bond_inmate_id b, bond_type_col b, amount_pennies b)) new_bonds =
     List.map (fun b => (iid, Inmate.bond_type b, u64_as_i32 (Inmate.bond_amount b)))
              (Inmate.bonds (Inmate.bond r))) /\
  (exists new_charges, charge_rows d' = charge_rows d ++ new_charges /\
     List.map (fun c => (charge_inmate_id c, charge_description c, charge_grade c,
                         charge_offense_date c)) new_charges =
     List.map (fun c => (iid, Inmate.description c, Inmate.charge_grade_to_string (Inmate.grade c),
                         Inmate.offense_date c)) (Inmate.charge_list (Inmate.charges r))) /\
  (exists img_row, img_rows d' = img_rows d ++ [img_row] /\
     img_inmate_id img_row = iid /\ img_col img_row = Inmate.img_blob (Inmate.profile r)).
Proof.
  unfold serialize_record. cbv zeta.
  match goal with
  | |- context [match ?b {| txn_db := d; aborted := false |} with _ => _ end] =>
      destruct (b {| txn_db := d; aborted := false |}) as [[a|e] t] eqn:E
  end; [|discriminate].
  apply bind_ok_inv in E as (iid0 & t1 & H1 & E).
  apply bind_ok_inv in E as ([] & t2 & H2 & E).
  apply bind_ok_inv in E as ([] & t3 & H3 & E).
  unfold ret in E. injection E as <- <-.
  apply profile_ok_shape in H1 as (Hab1 & Hb1 & Hc1 & img_row & Hi1 & Hii & Hic).
  apply bonds_ok_shape in H2 as (Hab2 & Hc2 & Hi2 & nb & Hb2 & Hmb); [|exact Hab1].
  apply charges_ok_shape in H3 as (Hab3 & Hb3 & Hi3 & nc & Hc3 & Hmc); [|exact Hab2].
  rewrite Hab3. intros H. injection H as <- <-. simpl in *.
  split; [|split].
  - exists nb. split; [congruence | exact Hmb].
  - exists nc. split; [congruence | exact Hmc].
  - exists img_row. split; [congruence | split; assumption].
Qed.

(** X17: when [serialize_record] commits, the bond rows gain one row per bond and the charge rows one row per charge, in order and carrying the returned inmate id, and exactly one img row is added for that inmate with the profile's image. *)
Theorem serialize_record_commit env r aws_s3_client d iid d' :
  serialize_record env r aws_s3_client d = (Ok iid, d') ->
  (exists new_bonds, bond_rows d' = bond_rows d ++ new_bonds /\
     List.map (fun b => (bond_inmate_id b, bond_type_col b, amount_pennies b)) new_bonds =
     List.map (fun b => (iid, Inmate.bond_type b, u64_as_i32 (Inmate.bond_amount b)))
              (Inmate.bonds (Inmate.bond r))) /\
  (exists new_charges, charge_rows d' = charge_rows d ++ new_charges /\
     List.map (fun c => (charge_inmate_id c, charge_description c, charge_grade c,
                         charge_offense_date c)) new_charges =
     List.map (fun c => (iid, Inmate.description c, Inmate.charge_grade_to_string (Inmate.grade c),
                         Inmate.offense_date c)) (Inmate.charge_list (Inmate.charges r))) /\
  (exists img_row, img_rows d' = img_rows d ++ [img_row] /\
     img_inmate_id img_row = iid /\ img_col img_row = Inmate.img_blob (Inmate.profile r)).
Proof. apply serialize_record_ok_shape. Qed.

Definition commit_record : Inmate.Record_ := {|
  Inmate.url := Inmate.url fixture_record;
  Inmate.profile := fixture_profile;
  Inmate.bond := {| Inmate.bonds := [fixture_bond] |};
  Inmate.charges := {| Inmate.charge_list :=
    [{| Inmate.description := "THEFT 5TH DEGREE"; Inmate.grade := Inmate.Misdemeanor;
        Inmate.offense_date := "01/01/2024" |}] |} |}.

Lemma serialize_record_commit_witness :
  fst (serialize_record fixture_env commit_record None empty_db) = Ok 1%Z /\
  exists img_row,
    img_rows (snd (serialize_record fixture_env commit_record None empty_db)) = [img_row] /\
    img_inmate_id img_row = 1%Z /\ img_col img_row = Some [Byte.x01].
Proof.
  destruct (serialize_record fixture_env commit_record None empty_db) as [[iid|e] d'] eqn:E;
    [|vm_compute in E; discriminate].
  assert (Hiid : iid = 1%Z) by (vm_compute in E; congruence). subst iid.
  split; [reflexivity|].
  destruct (serialize_record_commit _ _ _ _ _ _ E) as (_ & _ & img_row & Hi & Hid & Hc).
  exists img_row. split; [exact Hi | split; [exact Hid | exact Hc]].
Defined.

Lemma serialize_records_loop_inserted_ge env oai_client aws_s3_client recs i f d i' f' d' :
  serialize_records_loop env recs oai_client aws_s3_client i f d = (i', f', d') -> (i <= i')%nat.
Proof.
  revert i f d. induction recs as [|r recs IH]; intros i f d Hl; simpl in Hl.
  - injection Hl as <- _ _. lia.
  - destruct (serialize_record _ _ _ _) as [[a|e] d2]; apply IH in Hl; lia.
Qed.

(** X18: when the batch inserts no record, all six tables are as they were before it. *)
Theorem serialize_records_none_inserted env records oai_client aws_s3_client d f d' :
  serialize_records env records oai_client aws_s3_client d = (0%nat, f, d') ->
  inmate_rows d' = inmate_rows d /\ alias_rows d' = alias_rows d /\
  inmate_alias_rows d' = inmate_alias_rows d /\ bond_rows d' = bond_rows d /\
  charge_rows d' = charge_rows d /\ img_rows d' = img_rows d.
Proof.
  unfold serialize_records.
  assert (H : forall recs i f0 d0 f1 d1,
             serialize_records_loop env recs oai_client aws_s3_client i f0 d0 = (i, f1, d1) ->
             inmate_rows d1 = inmate_rows d0 /\ alias_rows d1 = alias_rows d0 /\
             inmate_alias_rows d1 = inmate_alias_rows d0 /\ bond_rows d1 = bond_rows d0 /\
             charge_rows d1 = charge_rows d0 /\ img_rows d1 = img_rows d0).
  { induction recs as [|r recs IH]; intros i f0 d0 f1 d1 Hl; simpl in Hl.
    - injection Hl as _ <-. repeat split.
    - destruct (serialize_record env (embedding_step env oai_client r) aws_s3_client d0)
        as [[a|e] d2] eqn:E.
      + exfalso. apply serialize_records_loop_inserted_ge in Hl. lia.
      + apply serialize_record_atomic_frame in E.
        destruct (IH _ _ _ _ _ Hl) as (A1 & A2 & A3 & A4 & A5 & A6).
        destruct E as (B1 & B2 & B3 & B4 & B5 & B6). repeat split; congruence. }
  exact (H records 0%nat 0%nat d f d').
Qed.

Lemma serialize_records_none_inserted_witness :
  fst (fst (serialize_records fixture_env [fixture_record] None None committed_db)) = 0%nat /\
  inmate_rows (snd (serialize_records fixture_env [fixture_record] None None committed_db)) =
  inmate_rows committed_db.
Proof.
  destruct (serialize_records fixture_env [fixture_record] None None committed_db)
    as [[i f] d'] eqn:E.
  assert (Hi : i = 0%nat) by (vm_compute in E; congruence). subst i.
  split; [reflexivity|].
  exact (proj1 (serialize_records_none_inserted _ _ _ _ _ _ _ E)).
Defined.

End TxnFacts.

(* ------------------------------------------------------------------ *)
Module FilterFacts.
Import Store Utils UtilsFacts.

Lemma id_desc_trans : Transitive id_desc.
Proof. intros r1 r2 r3. unfold id_desc. lia. Qed.

Lemma StronglySorted_app_l {A} (R : A -> A -> Prop) l1 l2 :
  StronglySorted R (l1 ++ l2) -> StronglySorted R l1.
Proof.
  induction l1 as [|x l1 IH]; simpl; intros H; [constructor|].
  apply StronglySorted_inv in H as [H Hx]. constructor; [apply IH, H|].
  apply Forall_forall. intros y Hy. rewrite Forall_forall in Hx. apply Hx.
  apply list_elem_of_In, in_or_app. left. apply list_elem_of_In. exact Hy.
Qed.

Lemma StronglySorted_app_cross {A} (R : A -> A -> Prop) l1 l2 x y :
  StronglySorted R (l1 ++ l2) -> In x l1 -> In y l2 -> R x y.
Proof.
  induction l1 as [|z l1 IH]; simpl; intros H Hx Hy; [contradiction|].
  apply StronglySorted_inv in H as [H Hz]. destruct Hx as [<-|Hx]; [|exact (IH H Hx Hy)].
  rewrite Forall_forall in Hz. apply Hz. apply list_elem_of_In, in_or_app. right. exact Hy.
Qed.

Lemma recent_records_sorted n d rs :
  recent_records n d = Ok rs ->
  (0 <= n)%Z /\
  exists rest, rs ++ rest = merge_sort id_desc (inmate_rows d) /\
               rs = take (Z.to_nat n) (merge_sort id_desc (inmate_rows d)) /\
               StronglySorted id_desc (rs ++ rest).
Proof.
  unfold recent_records. destruct (Z.ltb_spec n 0) as [Hn|Hn]; [discriminate|].
  intros Hr. injection Hr as <-. split; [lia|].
  exists (drop (Z.to_nat n) (merge_sort id_desc (inmate_rows d))).
  rewrite take_drop. split; [reflexivity|]. split; [reflexivity|].
  apply Sorted_StronglySorted; [apply id_desc_trans|].
  apply Sorted_merge_sort. exact id_desc_total.
Qed.

(** X19: the rows read by the incremental filter are the min(n, number of rows) rows of largest id, in descending id order. *)
Theorem recent_records_newest n d rs :
  recent_records n d = Ok rs ->
  length rs = Nat.min (Z.to_nat n) (length (inmate_rows d)) /\
  Sorted id_desc rs /\
  exists rest, rs ++ rest ≡ₚ inmate_rows d /\
               forall r r', In r rs -> In r' rest -> (id r' <= id r)%Z.
Proof.
  intros H. apply recent_records_sorted in H as (_ & rest & Happ & Hrs & Hss).
  split; [|split].
  - rewrite Hrs, length_take, (Permutation_length (merge_sort_Permutation _ _)). reflexivity.
  - apply StronglySorted_Sorted, (StronglySorted_app_l _ _ rest), Hss.
  - exists rest. split; [rewrite Happ; apply merge_sort_Permutation|].
    intros r r' Hr Hr'. exact (StronglySorted_app_cross _ _ _ _ _ Hss Hr Hr').
Qed.

Lemma recent_records_newest_witness :
  length [sysid_row 3 None None; sysid_row 2 (Some "1001") (Some "")] =
  Nat.min 2 (length (inmate_rows shared_key_db)).
Proof.
  apply (proj1 (recent_records_newest 2 shared_key_db _ ltac:(vm_compute; reflexivity))).
Defined.

(** the updatelist *)
Definition backfill_match (k : string) (r : InmateRow) : Prop :=
  scil_sysid r = Some k /\ img_url_missing r = true.

Lemma classify_last_match k v rows :
  forall (bl : gset string) (ul : gmap string Z),
  (List.fold_left classify_record rows (bl, ul)).2 !! k = Some v ->
  (ul !! k = Some v /\ forall r, In r rows -> ~ backfill_match k r) \/
  exists pre r post, rows = pre ++ r :: post /\ backfill_match k r /\ id r = v /\
                     forall r', In r' post -> ~ backfill_match k r'.
Proof.
  unfold backfill_match.
  induction rows as [|x rows IH]; intros bl ul H.
  - left. split; [exact H | intros r []].
  - change ((List.fold_left classify_record rows (classify_record (bl, ul) x)).2 !! k = Some v) in H.
    destruct (classify_record (bl, ul) x) as [bl1 ul1] eqn:Ex.
    destruct (IH bl1 ul1 H) as [[Hv Hnone]|(pre & r & post & -> & Hm & Hid & Hpost)].
    + unfold classify_record in Ex.
      destruct (scil_sysid x) as [s|] eqn:Hs; [destruct (img_url_missing x) eqn:Hm|].
      * injection Ex as <- <-. rewrite lookup_insert in Hv.
        destruct (decide (s = k)) as [<-|Hne].
        -- right. exists [], x, rows. injection Hv as Hv. split; [reflexivity|].
           split; [split; assumption|]. split; [exact Hv | exact Hnone].
        -- left. split; [exact Hv|]. intros r [<-|Hr] [Hk Hmr]; [congruence|].
           exact (Hnone r Hr (conj Hk Hmr)).
      * injection Ex as <- <-. left. split; [exact Hv|].
        intros r [<-|Hr] [Hk Hmr]; [congruence|]. exact (Hnone r Hr (conj Hk Hmr)).
      * injection Ex as <- <-. left. split; [exact Hv|].
        intros r [<-|Hr] [Hk Hmr]; [congruence|]. exact (Hnone r Hr (conj Hk Hmr)).
    + right. exists (x :: pre), r, post. split; [reflexivity|]. auto.
Qed.

(** X20: for a natural key in the updatelist, the stored id is the smallest id among the examined rows of that key that lack an image. *)
Theorem updatelist_keeps_oldest n d bl ul k v :
  get_blacklist_and_updatelist n d = Ok (bl, ul) -> ul !! k = Some v ->
  exists rs, recent_records n d = Ok rs /\
    (exists r, In r rs /\ scil_sysid r = Some k /\ img_url_missing r = true /\ id r = v) /\
    (forall r, In r rs -> scil_sysid r = Some k -> img_url_missing r = true -> (v <= id r)%Z).
Proof.
  unfold get_blacklist_and_updatelist.
  destruct (recent_records n d) as [rs|e] eqn:Hrec; [|discriminate].
  intros H Hv. injection H as Hp. apply (f_equal snd) in Hp. cbn [snd] in Hp. subst ul.
  exists rs. split; [reflexivity|].
  apply recent_records_sorted in Hrec as (_ & rest & _ & _ & Hss).
  apply StronglySorted_app_l in Hss.
  destruct (classify_last_match k v rs ∅ ∅ Hv) as [[Hv' _]|(pre & r & post & Hrs & Hm & Hid & Hpost)];
    [rewrite lookup_empty in Hv'; discriminate|].
  split.
  - exists r. destruct Hm as [Hk Hmr]. subst rs. split; [apply in_or_app; right; left; reflexivity|]. auto.
  - intros r' Hr' Hk Hmr. subst rs. apply in_app_or in Hr' as [Hr'|[<-|Hr']].
    + pose proof (StronglySorted_app_cross _ _ _ r' r Hss Hr' (or_introl eq_refl)) as Hd.
      unfold id_desc in Hd. lia.
    + lia.
    + exfalso. exact (Hpost r' Hr' (conj Hk Hmr)).
Qed.

(** Two rows of one natural key that both lack an image: the
    updatelist keeps the older id. *)
Definition double_backfill_db : Db :=
  mk_db [sysid_row 1 (Some "1001") None; sysid_row 2 (Some "1001") (Some "")]
        [] [] [] [] [] 3 1 1 1 1.

Lemma updatelist_keeps_oldest_witness :
  get_blacklist_and_updatelist 45 double_backfill_db = Ok (∅, {["1001" := 1%Z]}) /\
  ({["1001" := 1%Z]} : gmap string Z) !! "1001"%string = Some 1%Z /\
  exists rs, recent_records 45 double_backfill_db = Ok rs /\
    (exists r, In r rs /\ scil_sysid r = Some "1001"%string /\ img_url_missing r = true /\ id r = 1%Z) /\
    (forall r, In r rs -> scil_sysid r = Some "1001"%string -> img_url_missing r = true -> (1 <= id r)%Z).
Proof.
  assert (H1 : get_blacklist_and_updatelist 45 double_backfill_db = Ok (∅, {["1001" := 1%Z]}))
    by (vm_compute; reflexivity).
  assert (H2 : ({["1001" := 1%Z]} : gmap string Z) !! "1001"%string = Some 1%Z)
    by (vm_compute; reflexivity).
  split; [exact H1|]. split; [exact H2|].
  exact (updatelist_keeps_oldest 45 double_backfill_db ∅ {["1001" := 1%Z]} "1001" 1 H1 H2).
Defined.

End FilterFacts.

Module ProfileFacts.
Import Text Inmate.

Lemma set_profile_field_keeps p label t :
  scil_sys_id (set_profile_field p label t) = scil_sys_id p /\
  img_blob (set_profile_field p label t) = img_blob p /\
  embedding (set_profile_field p label t) = embedding p.
Proof. unfold set_profile_field. repeat case_match; repeat split. Qed.

Lemma process_pairs_keeps p dts dds :
  scil_sys_id (process_pairs p dts dds) = scil_sys_id p /\
  img_blob (process_pairs p dts dds) = img_blob p /\
  embedding (process_pairs p dts dds) = embedding p.
Proof.
  revert p dds. induction dts as [|dt dts IH]; intros p [|dd dds]; simpl; try (repeat split; reflexivity).
  destruct (IH (process_pair p dt dd) dds) as (H1 & H2 & H3).
  rewrite H1, H2, H3. unfold process_pair.
  destruct dt; [apply set_profile_field_keeps | repeat split].
Qed.

Lemma set_core_profile_data_keeps p html :
  scil_sys_id (set_core_profile_data p html) = scil_sys_id p /\
  img_blob (set_core_profile_data p html) = img_blob p /\
  embedding (set_core_profile_data p html) = embedding p.
Proof.
  unfold set_core_profile_data. generalize (profile_tables html) as ts. intros ts.
  revert p. induction ts as [|tb ts IH]; intros p; simpl; [repeat split|].
  destruct (IH (process_pairs p (dts tb) (dds tb))) as (H1 & H2 & H3).
  destruct (process_pairs_keeps p (dts tb) (dds tb)) as (K1 & K2 & K3).
  repeat split; congruence.
Qed.

(** X21: a built profile carries the given natural key and no embedding, and its image, if any, is the body of a successful fetch of https: followed by the page's image source. *)
Theorem profile_build_provenance fetch_img html sys_id p :
  inmate_profile_build fetch_img html sys_id = Ok p ->
  scil_sys_id p = Some sys_id /\ embedding p = None /\
  (forall blob, img_blob p = Some blob ->
     exists src, img_src html = Some src /\ fetch_img ("https:" ++ src)%string = Some (true, Some blob)).
Proof.
  unfold inmate_profile_build. cbv zeta.
  set (p0 := set_core_profile_data (set_scil_sys_id default_profile (Some sys_id)) html).
  destruct (set_core_profile_data_keeps (set_scil_sys_id default_profile (Some sys_id)) html)
    as (K1 & K2 & K3). fold p0 in K1, K2, K3. simpl in K1, K2, K3.
  destruct (img_src html) as [src|] eqn:Hsrc.
  - destruct (fetch_img ("https:" ++ src)%string) as [[success [blob|]]|] eqn:Hf.
    + destruct (is_core_empty (set_img_blob p0 (if success then Some blob else None))); [discriminate|].
      intros H. injection H as <-. simpl. split; [exact K1|]. split; [exact K3|].
      intros b Hb. destruct success; [|discriminate]. injection Hb as <-. eauto.
    + destruct (is_core_empty p0); [discriminate|]. intros H. injection H as <-.
      split; [exact K1|]. split; [exact K3|]. rewrite K2. discriminate.
    + destruct (is_core_empty p0); [discriminate|]. intros H. injection H as <-.
      split; [exact K1|]. split; [exact K3|]. rewrite K2. discriminate.
  - destruct (is_core_empty p0); [discriminate|]. intros H. injection H as <-.
    split; [exact K1|]. split; [exact K3|]. rewrite K2. discriminate.
Qed.

Definition fixture_html : Html := {|
  img_src := Some "//www.scottcountyiowa.us/sheriff/images/inmates/1.jpg";
  profile_tables := [{| dts := [Some "First:"; Some "Last:"; Some "Date of Birth:";
                                Some "Booking Date Time:"];
                        dds := [Some "Jo"; Some "X"; Some "1990-01-01"; Some "2024-01-01 10:00"] |}];
  bond_rows := []; charge_rows := [["1"; "Theft"; "Felony"; "2024-01-01"]] |}.

Lemma profile_build_provenance_witness :
  exists p, inmate_profile_build (fun _ => Some (true, Some [Byte.x01])) fixture_html "1" = Ok p /\
            scil_sys_id p = Some "1"%string.
Proof.
  destruct (inmate_profile_build (fun _ => Some (true, Some [Byte.x01])) fixture_html "1")
    as [p|e] eqn:E; [|vm_compute in E; discriminate].
  exists p. split; [reflexivity|].
  exact (proj1 (profile_build_provenance _ _ _ _ E)).
Defined.

End ProfileFacts.
